(** * langgraphgo: the message graph of package [graph]

    A shallow embedding of [graph/graph.go] and proofs of the properties its
    specification states about building, compiling and running a graph.

    Layout of the embedding:
    - Go's [error] values as far as the package builds them ([errors.New],
      [fmt.Errorf] with one [%w] verb);
    - the structs [Node], [Edge], [MessageGraph] and [Runnable], the map
      field of [MessageGraph] with its nil value, which the zero value of
      the exported struct holds and on which a write panics;
    - the methods with a pointer receiver as computations over a store of
      [MessageGraph] cells, because [Compile] keeps the pointer it was
      called on and the builder methods mutate the pointee in place;
    - [Invoke]'s unbounded [for] loop as a fuel-indexed iteration of the
      loop body. *)

From stdpp Require Import gmap strings list fin_maps.

(** ** Errors *)

(** [errors.New(s)] yields an [errorString]; [fmt.Errorf] with a [%w] verb
    yields a [wrapError] that stores the formatted message and the wrapped
    operand.  Go compares [errorString] values by address; the three error
    variables of the package carry distinct texts, so comparing by content
    identifies the same variables. *)
Inductive error : Type :=
| errorString (s : string)
| wrapError (msg : string) (err : error).

#[global] Instance error_eq_dec : EqDecision error.
Proof. solve_decision. Defined.

(** The method [Error()]. *)
Definition Error (e : error) : string :=
  match e with
  | errorString s => s
  | wrapError msg _ => msg
  end.

(** The method [Unwrap()], [None] where the value has none. *)
Definition Unwrap (e : error) : option error :=
  match e with
  | errorString _ => None
  | wrapError _ err => Some err
  end.

(** [errors.Is(e, target)]: walks the [Unwrap] chain of [e]. *)
Fixpoint errors_Is (e target : error) : bool :=
  bool_decide (e = target) ||
  match e with
  | errorString _ => false
  | wrapError _ err => errors_Is err target
  end.

(** [const END = "END"] *)
Definition END : string := "END".

Definition ErrEntryPointNotSet : error := errorString "entry point not set".
Definition ErrNodeNotFound : error := errorString "node not found".
Definition ErrNoOutgoingEdge : error := errorString "no outgoing edge found for node".

(** [fmt.Errorf("%w: %s", err, name)], the call that builds the
    node-not-found and the no-outgoing-edge errors. *)
Definition Errorf_w_s (err : error) (name : string) : error :=
  wrapError (Error err +:+ ": " +:+ name) err.

(** [fmt.Errorf("error in node %s: %w", name, err)] *)
Definition Errorf_error_in_node (name : string) (err : error) : error :=
  wrapError ("error in node " +:+ name +:+ ": " +:+ Error err) err.

(** ** The store *)

(** A [*MessageGraph] is an address; the store maps the allocated addresses
    to the structs they hold. *)
Definition loc : Type := positive.

(** A computation over a store of cells [C]: [None] is the run-time panic of
    dereferencing an address that holds no struct (a nil pointer). *)
Definition M (C A : Type) : Type := gmap loc C → option (A * gmap loc C).

#[global] Instance M_ret {C} : MRet (M C) := λ A a h, Some (a, h).

#[global] Instance M_bind {C} : MBind (M C) := λ A B k m h,
  match m h with
  | Some (a, h') => k a h'
  | None => None
  end.

(** [*p] *)
Definition deref {C} (p : loc) : M C C := λ h, (λ c, (c, h)) <$> h !! p.

(** [*p = c] *)
Definition assign {C} (p : loc) (c : C) : M C unit :=
  λ h, (λ _, (tt, <[p := c]> h)) <$> h !! p.

(** [&C{...}]: a new cell at an address not yet in use. *)
Definition alloc {C} (c : C) : M C loc :=
  λ h, let p := fresh (dom h) in Some (p, <[p := c]> h).

(** A run-time panic. *)
Definition panic {C A} : M C A := λ _, None.

Section Graph.

(** The state type [T] of [MessageGraph[T]] and the type of
    [context.Context] values; the package inspects neither. *)
Context {T Ctx : Type}.

(** ** Data *)

(** [func(ctx context.Context, state T) (T, error)]; a nil error is [None].
    A step is taken to be a function of its two arguments that returns: a
    nil function value, a step that panics or runs forever, and a step that
    writes to the graph it belongs to are outside the model. *)
Definition step : Type := Ctx → T → T * option error.

Record Node : Type := { Name : string; Function : step }.

Record Edge : Type := { From : string; To : string }.

(** A Go map value is [None] when it is the nil map, as in the zero value
    [MessageGraph[T]{}], and [Some m] once [make] has made it. *)
Record MessageGraph : Type :=
  { nodes : option (gmap string Node); edges : list Edge; entryPoint : string }.

(** Reading [m[name]] with the comma-ok form: a nil map reads as a map
    without entries. *)
#[global] Instance nodes_lookup : Lookup string Node (option (gmap string Node)) :=
  λ name m, m' ← m; m' !! name.

Record Runnable : Type := { graph : loc }.

(** ** Building a graph *)

(** The assignment [g.nodes[name] = ...] panics when [g.nodes] is the nil
    map. *)
Definition AddNode (g : loc) (name : string) (fn : step) : M MessageGraph unit :=
  (G ← deref g;
   match nodes G with
   | None => panic
   | Some m =>
       assign g {| nodes := Some (<[name := {| Name := name; Function := fn |}]> m);
                   edges := edges G;
                   entryPoint := entryPoint G |}
   end).

Definition NewMessageGraph : M MessageGraph loc :=
  (g ← alloc {| nodes := Some ∅; edges := []; entryPoint := "" |};
   AddNode g END (λ ctx state, (state, None)) ;;
   mret g).

Definition AddEdge (g : loc) (from to : string) : M MessageGraph unit :=
  (G ← deref g;
   assign g {| nodes := nodes G;
               edges := edges G ++ [{| From := from; To := to |}];
               entryPoint := entryPoint G |}).

Definition SetEntryPoint (g : loc) (name : string) : M MessageGraph unit :=
  (G ← deref g;
   assign g {| nodes := nodes G; edges := edges G; entryPoint := name |}).

(** ** Compile *)

(** The results are a [*Runnable] and an [error]; the [Runnable] is never
    written after it is made, so it is kept as a value and [None] is its
    nil.  The address of the [Runnable], a new one at every call, is not
    part of the model: two results are compared by the graph pointer they
    hold. *)
Definition Compile (g : loc) : M MessageGraph (option Runnable * option error) :=
  (G ← deref g;
   if decide (entryPoint G = "") then mret (None, Some ErrEntryPointNotSet)
   else mret (Some {| graph := g |}, None)).

(** ** Invoke *)

(** How one pass through the body of the [for] loop ends: with the next
    value of [currentNode] and [state], or by leaving [Invoke] with its two
    results ([break] reaches [return state, nil]). *)
Inductive flow : Type :=
| Continue (currentNode : string) (state : T)
| Return (state : T) (err : option error).

(** The body of [for { ... }].  The first component is a ghost log: the
    names under which [node.Function] was called in this pass. *)
Definition iteration (G : MessageGraph) (ctx : Ctx)
    (currentNode : string) (state : T) : list string * flow :=
  if decide (currentNode = END) then ([], Return state None)
  else
    match nodes G !! currentNode with
    | None => ([], Return state (Some (Errorf_w_s ErrNodeNotFound currentNode)))
    | Some node =>
        let '(state, err) := Function node ctx state in
        match err with
        | Some err =>
            ([currentNode],
             Return state (Some (Errorf_error_in_node currentNode err)))
        | None =>
            match find (λ edge, bool_decide (From edge = currentNode)) (edges G) with
            | Some edge => ([currentNode], Continue (To edge) state)
            | None =>
                ([currentNode],
                 Return state (Some (Errorf_w_s ErrNoOutgoingEdge currentNode)))
            end
        end
    end.

(** What a call of [Invoke] does: it returns, it panics on a nil graph
    pointer, or the fuel given to the model ran out before it returned. *)
Inductive exec : Type :=
| Returns (calls : list string) (state : T) (err : option error)
| Panics
| OutOfFuel.

Definition logged (calls : list string) (e : exec) : exec :=
  match e with
  | Returns calls' state err => Returns (calls ++ calls') state err
  | Panics => Panics
  | OutOfFuel => OutOfFuel
  end.

(** The [for] loop, at most [fuel] passes. *)
Fixpoint loop (fuel : nat) (G : MessageGraph) (ctx : Ctx)
    (currentNode : string) (state : T) : exec :=
  match fuel with
  | O => OutOfFuel
  | S fuel =>
      match iteration G ctx currentNode state with
      | (calls, Return state err) => Returns calls state err
      | (calls, Continue currentNode state) =>
          logged calls (loop fuel G ctx currentNode state)
      end
  end.

(** [r.Invoke(ctx, state)].  The step functions are functions of their
    arguments and so leave the store alone: [r.graph] holds the same struct
    in every pass and is read once. *)
Definition Invoke (fuel : nat) (r : Runnable) (ctx : Ctx) (state : T)
    (h : gmap loc MessageGraph) : exec :=
  match h !! graph r with
  | None => Panics
  | Some G => loop fuel G ctx (entryPoint G) state
  end.

End Graph.

Arguments step : clear implicits.
Arguments Node : clear implicits.
Arguments MessageGraph : clear implicits.
Arguments flow : clear implicits.
Arguments exec : clear implicits.

(** ** Build scripts *)

Section Scripts.

Context {T Ctx : Type}.

(** One call of a builder method on a graph. *)
Inductive op : Type :=
| OpAddNode (name : string) (fn : step T Ctx)
| OpAddEdge (from to : string)
| OpSetEntryPoint (name : string).

Definition run_op (g : loc) (o : op) : M (MessageGraph T Ctx) unit :=
  match o with
  | OpAddNode name fn => AddNode g name fn
  | OpAddEdge from to => AddEdge g from to
  | OpSetEntryPoint name => SetEntryPoint g name
  end.

Fixpoint run_ops (g : loc) (os : list op) : M (MessageGraph T Ctx) unit :=
  match os with
  | [] => mret tt
  | o :: os => run_op g o ;; run_ops g os
  end.

(** [NewMessageGraph] followed by the calls of [os], in order. *)
Definition build (os : list op) : M (MessageGraph T Ctx) loc :=
  g ← NewMessageGraph; run_ops g os ;; mret g.

(** The struct a builder call leaves in the cell it is applied to when it
    returns ([run_op_effect] and [run_op_returns] below); [AddNode] does not
    return on a nil map. *)
Definition effect (o : op) (G : MessageGraph T Ctx) : MessageGraph T Ctx :=
  match o with
  | OpAddNode name fn =>
      {| nodes := insert name {| Name := name; Function := fn |} <$> nodes G;
         edges := edges G;
         entryPoint := entryPoint G |}
  | OpAddEdge from to =>
      {| nodes := nodes G;
         edges := edges G ++ [{| From := from; To := to |}];
         entryPoint := entryPoint G |}
  | OpSetEntryPoint name =>
      {| nodes := nodes G; edges := edges G; entryPoint := name |}
  end.

Definition effects (os : list op) (G : MessageGraph T Ctx) : MessageGraph T Ctx :=
  foldl (λ G o, effect o G) G os.

(** The struct [NewMessageGraph] allocates, as it is when the call returns. *)
Definition new_graph : MessageGraph T Ctx :=
  {| nodes := Some (<[END := {| Name := END; Function := λ _ state, (state, None) |}]> ∅);
     edges := [];
     entryPoint := "" |}.

Definition is_SetEntryPoint (o : op) : bool :=
  match o with
  | OpSetEntryPoint _ => true
  | _ => false
  end.

(** The argument of the last [SetEntryPoint] call of a script, [None] when
    the script has no such call. *)
Definition entry_set (os : list op) : option string :=
  match find is_SetEntryPoint (rev os) with
  | Some (OpSetEntryPoint name) => Some name
  | _ => None
  end.

(** The script without its [SetEntryPoint] calls. *)
Definition without_entry (os : list op) : list op :=
  List.filter (λ o, negb (is_SetEntryPoint o)) os.

(** ** Vocabulary of the properties *)

(** [reaches G ctx c s calls c' s']: the loop started with
    [currentNode = c] and [state = s] comes to the top of a pass with
    [currentNode = c'] and [state = s'], having called the nodes [calls]. *)
Inductive reaches (G : MessageGraph T Ctx) (ctx : Ctx) :
    string → T → list string → string → T → Prop :=
| reaches_here c s : reaches G ctx c s [] c s
| reaches_pass c s calls c1 s1 calls' c2 s2 :
    iteration G ctx c s = (calls, Continue c1 s1) →
    reaches G ctx c1 s1 calls' c2 s2 →
    reaches G ctx c s (calls ++ calls') c2 s2.

(** The targets of the edges that leave [name], in declaration order. *)
Definition out_edges (G : MessageGraph T Ctx) (name : string) : list string :=
  To <$> filter (λ e, From e = name) (edges G).

(** [linear_chain G c chain]: from [c] the graph is the chain of the named
    steps [chain] and then the sentinel; every node of the chain is
    registered with its step and has exactly one outgoing edge, to the next
    one. *)
Fixpoint linear_chain (G : MessageGraph T Ctx) (c : string)
    (chain : list (string * step T Ctx)) : Prop :=
  match chain with
  | [] => c = END
  | (name, fn) :: chain =>
      c = name ∧ name ≠ END ∧
      Function <$> nodes G !! name = Some fn ∧
      ∃ next, out_edges G name = [next] ∧ linear_chain G next chain
  end.

(** The steps applied in order to the threaded state; [None] when one of
    them fails. *)
Fixpoint thread (ctx : Ctx) (fns : list (step T Ctx)) (state : T) : option T :=
  match fns with
  | [] => Some state
  | fn :: fns =>
      match fn ctx state with
      | (state, None) => thread ctx fns state
      | (_, Some _) => None
      end
  end.

End Scripts.

Arguments op : clear implicits.

(** ** The cases of [graph_test.go] *)

Module Tests.

Abbreviation G := (MessageGraph (list string) unit).

Definition append_msg (s : string) : step (list string) unit :=
  λ _ state, (state ++ [s], None).

Definition keep : step (list string) unit := λ _ state, (state, None).

Definition fail_with (msg : string) : step (list string) unit :=
  λ _ _, ([], Some (errorString msg)).

Definition simple_graph : list (op (list string) unit) :=
  [ OpAddNode "node1" (append_msg "Node 1");
    OpAddNode "node2" (append_msg "Node 2");
    OpAddEdge "node1" "node2";
    OpAddEdge "node2" END;
    OpSetEntryPoint "node1" ].

Definition entry_point_not_set : list (op (list string) unit) :=
  [ OpAddNode "node1" keep ].

Definition node_not_found : list (op (list string) unit) :=
  [ OpAddNode "node1" keep;
    OpAddEdge "node1" "node2";
    OpSetEntryPoint "node1" ].

Definition no_outgoing_edge : list (op (list string) unit) :=
  [ OpAddNode "node1" keep;
    OpSetEntryPoint "node1" ].

Definition error_in_node : list (op (list string) unit) :=
  [ OpAddNode "node1" (fail_with "node error");
    OpAddEdge "node1" END;
    OpSetEntryPoint "node1" ].

(** A chain whose second step fails. *)
Definition fails_second : list (op (list string) unit) :=
  [ OpAddNode "node1" (append_msg "Node 1");
    OpAddNode "node2" (fail_with "node error");
    OpAddEdge "node1" "node2";
    OpAddEdge "node2" END;
    OpSetEntryPoint "node1" ].

(** The store a script builds from the empty store: one cell, at the first
    address. *)
Definition store (os : list (op (list string) unit)) : gmap loc G :=
  <[1%positive := effects os new_graph]> ∅.

Definition r1 : Runnable := {| graph := 1%positive |}.

(** [Compile] on a graph that lacks an edge, the edge added afterwards, and
    then [Invoke] on the [Runnable] compiled before. *)
Definition edge_added_after_compile (fuel : nat) (input : list string) :
    option (exec (list string)) :=
  match (g ← build no_outgoing_edge;
         '(r, _) ← Compile g;
         AddEdge g "node1" END ;;
         mret r) ∅ with
  | Some (Some r, h) => Some (Invoke fuel r tt input h)
  | _ => None
  end.

(** The body of [t.Run]: build, compile, invoke; the error is reported by
    its message, as the test compares it. *)
Definition run_case (os : list (op (list string) unit)) (fuel : nat)
    (input : list string) : option (exec (list string) + string) :=
  match (g ← build os; Compile g) ∅ with
  | Some ((Some r, _), h) => Some (inl (Invoke fuel r tt input h))
  | Some ((None, Some e), _) => Some (inr (Error e))
  | _ => None
  end.

End Tests.

(** ** Readings of a build script *)

Section Readings.

Context {T Ctx : Type}.

(** The edges the [AddEdge] calls of a script name, in call order. *)
Definition added_edges (os : list (op T Ctx)) : list Edge :=
  omap (λ o, match o with
             | OpAddEdge from to => Some {| From := from; To := to |}
             | _ => None
             end) os.

(** The step of the last [AddNode] call of a script for [name]; [init] when
    the script has no such call. *)
Definition last_added (init : option (step T Ctx)) (os : list (op T Ctx))
    (name : string) : option (step T Ctx) :=
  foldl (λ found o, match o with
                    | OpAddNode n fn => if decide (n = name) then Some fn else found
                    | _ => found
                    end) init os.

(** Two builder calls that do not write the same thing: calls of different
    methods, and [AddNode] calls for different names. *)
Definition independent (o1 o2 : op T Ctx) : Prop :=
  match o1, o2 with
  | OpAddNode n1 _, OpAddNode n2 _ => n1 ≠ n2
  | OpAddEdge _ _, OpAddEdge _ _ => False
  | OpSetEntryPoint _, OpSetEntryPoint _ => False
  | _, _ => True
  end.

End Readings.

Module MoreTests.

Import Tests.

(** A node whose only edge leads back to itself. *)
Definition self_loop : list (op (list string) unit) :=
  [ OpAddNode "node1" (append_msg "again");
    OpAddEdge "node1" "node1";
    OpSetEntryPoint "node1" ].

(** The zero value [MessageGraph[[]string]{}], which a caller of the
    package can make without [NewMessageGraph], alone in a store. *)
Definition zero_value : G := {| nodes := None; edges := []; entryPoint := "" |}.

Definition zero_store : gmap loc G := <[1%positive := zero_value]> ∅.

(** The error message of an [Invoke] that returns an error. *)
Definition message (e : exec (list string)) : option string :=
  match e with
  | Returns _ _ (Some err) => Some (Error err)
  | _ => None
  end.

End MoreTests.

(** * Properties *)

Section Store.

Context {T Ctx : Type}.
Implicit Types (h : gmap loc (MessageGraph T Ctx)) (G : MessageGraph T Ctx).
Implicit Types (g : loc) (o : op T Ctx) (os : list (op T Ctx)).

(** *** Reading the nodes of a graph *)

Lemma lookup_made (m : gmap string (Node T Ctx)) name : Some m !! name = m !! name.
Proof. reflexivity. Qed.

Lemma lookup_nil name : (None : option (gmap string (Node T Ctx))) !! name = None.
Proof. reflexivity. Qed.

Lemma lookup_nodes_is_Some G name : is_Some (nodes G !! name) → is_Some (nodes G).
Proof. destruct (nodes G); [eauto|]. by intros [? ?]. Qed.

Lemma lookup_AddNode_eq G name fn :
  is_Some (nodes G) →
  nodes (effect (OpAddNode name fn) G) !! name
  = Some {| Name := name; Function := fn |}.
Proof. intros [m Hm]. simpl. rewrite Hm. simpl. by rewrite lookup_made, lookup_insert_eq. Qed.

Lemma lookup_AddNode_ne G name fn c :
  name ≠ c → nodes (effect (OpAddNode name fn) G) !! c = nodes G !! c.
Proof.
  intros Hne. simpl. destruct (nodes G) as [m|]; [|done].
  simpl. by rewrite !lookup_made, lookup_insert_ne.
Qed.

Lemma lookup_AddNode_Some G name fn c node :
  nodes (effect (OpAddNode name fn) G) !! c = Some node →
  name = c ∧ node = {| Name := name; Function := fn |} ∨
  name ≠ c ∧ nodes G !! c = Some node.
Proof.
  destruct (decide (name = c)) as [<-|Hne].
  - simpl. destruct (nodes G) as [m|]; [|done].
    simpl. rewrite lookup_made, lookup_insert_eq.
    intros [= <-]. by left.
  - rewrite lookup_AddNode_ne by done. by right.
Qed.

Lemma effect_made o G : is_Some (nodes G) → is_Some (nodes (effect o G)).
Proof. intros [m Hm]. destruct o; simpl; rewrite ?Hm; eauto. Qed.

Lemma effects_made os : ∀ G, is_Some (nodes G) → is_Some (nodes (effects os G)).
Proof.
  induction os as [|o os IH]; intros G HG; [done|].
  apply (IH (effect o G)). by apply effect_made.
Qed.

(** *** The builder calls *)

Lemma AddNode_Some h g G name fn :
  h !! g = Some G → is_Some (nodes G) →
  AddNode g name fn h = Some (tt, <[g := effect (OpAddNode name fn) G]> h).
Proof.
  intros Hg [m Hm]. unfold AddNode, mbind, M_bind, deref, assign.
  rewrite Hg. simpl. rewrite Hm, Hg. reflexivity.
Qed.

(** On the nil map of a zero-value graph [AddNode] panics. *)
Lemma AddNode_nil h g G name fn :
  h !! g = Some G → nodes G = None → AddNode g name fn h = None.
Proof.
  intros Hg Hm. unfold AddNode, mbind, M_bind, deref.
  rewrite Hg. simpl. by rewrite Hm.
Qed.

Lemma AddEdge_Some h g G from to :
  h !! g = Some G →
  AddEdge g from to h = Some (tt, <[g := effect (OpAddEdge from to) G]> h).
Proof.
  intros Hg. unfold AddEdge, mbind, M_bind, deref, assign.
  rewrite Hg. simpl. rewrite Hg. reflexivity.
Qed.

Lemma SetEntryPoint_Some h g G name :
  h !! g = Some G →
  SetEntryPoint g name h = Some (tt, <[g := effect (OpSetEntryPoint name) G]> h).
Proof.
  intros Hg. unfold SetEntryPoint, mbind, M_bind, deref, assign.
  rewrite Hg. simpl. rewrite Hg. reflexivity.
Qed.

Lemma Compile_Some h g G :
  h !! g = Some G →
  Compile g h =
    Some (if decide (entryPoint G = "")
          then (None, Some ErrEntryPointNotSet)
          else (Some {| graph := g |}, None), h).
Proof.
  intros Hg. unfold Compile, mbind, M_bind, deref.
  rewrite Hg. simpl. destruct (decide (entryPoint G = "")); reflexivity.
Qed.

Lemma run_op_effect h g G o :
  h !! g = Some G → is_Some (nodes G) →
  run_op g o h = Some (tt, <[g := effect o G]> h).
Proof.
  intros Hg Hm. destruct o.
  - by apply AddNode_Some.
  - by apply AddEdge_Some.
  - by apply SetEntryPoint_Some.
Qed.

(** A builder call that returns has left [effect] in the cell. *)
Lemma run_op_returns h g G o h' :
  h !! g = Some G → run_op g o h = Some (tt, h') →
  h' = <[g := effect o G]> h.
Proof.
  intros Hg. destruct o as [name fn|from to|name]; unfold run_op.
  - destruct (nodes G) as [m|] eqn:Hm.
    + rewrite (AddNode_Some _ _ G); [by intros [= <-]|done|].
      rewrite Hm. by eexists.
    + by rewrite (AddNode_nil _ _ G).
  - rewrite (AddEdge_Some _ _ G) by done. by intros [= <-].
  - rewrite (SetEntryPoint_Some _ _ G) by done. by intros [= <-].
Qed.

Lemma run_ops_effects os : ∀ h g G,
  h !! g = Some G → is_Some (nodes G) →
  run_ops g os h = Some (tt, <[g := effects os G]> h).
Proof.
  induction os as [|o os IH]; intros h g G Hg Hm; simpl.
  - unfold mret, M_ret. by rewrite insert_id.
  - unfold mbind, M_bind. rewrite (run_op_effect _ _ _ _ Hg Hm).
    rewrite (IH _ g (effect o G));
      [by rewrite insert_insert_eq|apply lookup_insert_eq|by apply effect_made].
Qed.

Lemma run_ops_returns os : ∀ h g G h',
  h !! g = Some G → run_ops g os h = Some (tt, h') →
  h' = <[g := effects os G]> h.
Proof.
  induction os as [|o os IH]; intros h g G h' Hg; simpl.
  - unfold mret, M_ret. intros [= <-]. by rewrite insert_id.
  - unfold mbind, M_bind.
    destruct (run_op g o h) as [[[] h1]|] eqn:Hop; [|done].
    apply (run_op_returns _ _ _ _ _ Hg) in Hop as ->. intros Hrest.
    apply (IH _ _ (effect o G)) in Hrest as ->; [|apply lookup_insert_eq].
    by rewrite insert_insert_eq.
Qed.

Lemma new_graph_made : is_Some (nodes (@new_graph T Ctx)).
Proof. by eexists. Qed.

Lemma new_graph_lookup name :
  nodes (@new_graph T Ctx) !! name
  = if decide (END = name)
    then Some {| Name := END; Function := λ _ state, (state, None) |}
    else None.
Proof.
  unfold new_graph. cbn [nodes]. rewrite lookup_made, lookup_insert.
  by case_decide.
Qed.

Lemma NewMessageGraph_Some h :
  NewMessageGraph h = Some (fresh (dom h), <[fresh (dom h) := new_graph]> h).
Proof.
  unfold NewMessageGraph, mbind, M_bind, alloc.
  rewrite (AddNode_Some _ _ _ _ _ (lookup_insert_eq _ _ _)) by by eexists.
  unfold mret, M_ret. by rewrite insert_insert_eq.
Qed.

Lemma NewMessageGraph_fresh h : h !! fresh (dom h) = None.
Proof. apply not_elem_of_dom, is_fresh. Qed.

Lemma build_Some h os :
  build os h =
    Some (fresh (dom h), <[fresh (dom h) := effects os new_graph]> h).
Proof.
  unfold build, mbind, M_bind. rewrite NewMessageGraph_Some.
  rewrite (run_ops_effects _ _ _ _ (lookup_insert_eq _ _ _)) by apply new_graph_made.
  unfold mret, M_ret. by rewrite insert_insert_eq.
Qed.

End Store.

Section Loop.

Context {T Ctx : Type}.
Implicit Types (G : MessageGraph T Ctx) (node : Node T Ctx) (ctx : Ctx).
Implicit Types (c name : string) (s state : T) (calls pre : list string).

(** *** The branches of the loop body *)

Lemma iteration_END G ctx s : iteration G ctx END s = ([], Return s None).
Proof. unfold iteration. by rewrite decide_True. Qed.

Lemma iteration_not_found G ctx c s :
  c ≠ END → nodes G !! c = None →
  iteration G ctx c s = ([], Return s (Some (Errorf_w_s ErrNodeNotFound c))).
Proof. intros Hc Hn. unfold iteration. by rewrite decide_False, Hn. Qed.

Lemma iteration_fails G ctx c s node s' cause :
  c ≠ END → nodes G !! c = Some node →
  Function node ctx s = (s', Some cause) →
  iteration G ctx c s = ([c], Return s' (Some (Errorf_error_in_node c cause))).
Proof. intros Hc Hn Hf. unfold iteration. by rewrite decide_False, Hn, Hf. Qed.

Lemma iteration_no_edge G ctx c s node s' :
  c ≠ END → nodes G !! c = Some node →
  Function node ctx s = (s', None) →
  find (λ edge, bool_decide (From edge = c)) (edges G) = None →
  iteration G ctx c s = ([c], Return s' (Some (Errorf_w_s ErrNoOutgoingEdge c))).
Proof.
  intros Hc Hn Hf He. unfold iteration. by rewrite decide_False, Hn, Hf, He.
Qed.

Lemma iteration_next G ctx c s node s' edge :
  c ≠ END → nodes G !! c = Some node →
  Function node ctx s = (s', None) →
  find (λ edge, bool_decide (From edge = c)) (edges G) = Some edge →
  iteration G ctx c s = ([c], Continue (To edge) s').
Proof.
  intros Hc Hn Hf He. unfold iteration. by rewrite decide_False, Hn, Hf, He.
Qed.

(** A pass that goes on has called exactly the current node, which is not
    the sentinel and is registered. *)
Lemma iteration_Continue_inv G ctx c s calls c' s' :
  iteration G ctx c s = (calls, Continue c' s') →
  calls = [c] ∧ c ≠ END ∧ ∃ node edge,
    nodes G !! c = Some node ∧ Function node ctx s = (s', None) ∧
    find (λ edge, bool_decide (From edge = c)) (edges G) = Some edge ∧
    To edge = c'.
Proof.
  unfold iteration. destruct (decide (c = END)) as [|Hc]; [done|].
  destruct (nodes G !! c) as [node|] eqn:Hn; [|done].
  destruct (Function node ctx s) as [s1 [e|]] eqn:Hf; [done|].
  destruct (find _ (edges G)) as [edge|] eqn:He; [|done].
  intros [= <- <- <-]. eauto 10.
Qed.

(** Every pass calls at most the current node, and never the sentinel. *)
Lemma iteration_calls G ctx c s calls f :
  iteration G ctx c s = (calls, f) → calls = [] ∨ calls = [c] ∧ c ≠ END.
Proof.
  unfold iteration. destruct (decide (c = END)) as [|Hc]; [intros [= <- _]; auto|].
  destruct (nodes G !! c) as [node|]; [|intros [= <- _]; auto].
  destruct (Function node ctx s) as [s1 [e|]]; [intros [= <- _]; auto|].
  destruct (find _ (edges G)); intros [= <- _]; auto.
Qed.

(** The body reads the graph through the lookup of the current node, when
    that is not the sentinel, and through the first edge that leaves it. *)
Lemma iteration_congr G G' ctx c s :
  (c ≠ END → nodes G' !! c = nodes G !! c) →
  find (λ edge, bool_decide (From edge = c)) (edges G')
  = find (λ edge, bool_decide (From edge = c)) (edges G) →
  iteration G' ctx c s = iteration G ctx c s.
Proof.
  intros Hn He. unfold iteration.
  destruct (decide (c = END)) as [|Hc]; [done|].
  by rewrite (Hn Hc), He.
Qed.

(** *** The loop *)

Lemma loop_congr G G' ctx fuel :
  (∀ c, c ≠ END → nodes G' !! c = nodes G !! c) →
  (∀ c, find (λ edge, bool_decide (From edge = c)) (edges G')
        = find (λ edge, bool_decide (From edge = c)) (edges G)) →
  ∀ c s, loop fuel G' ctx c s = loop fuel G ctx c s.
Proof.
  intros Hn He. induction fuel as [|fuel IH]; intros c s; simpl; [done|].
  rewrite (iteration_congr G G') by auto.
  destruct (iteration G ctx c s) as [calls [c1 s1|s1 e]]; [|done].
  by rewrite IH.
Qed.

Lemma loop_not_Panics G ctx fuel : ∀ c s, loop fuel G ctx c s ≠ Panics.
Proof.
  induction fuel as [|fuel IH]; intros c s; simpl; [done|].
  destruct (iteration G ctx c s) as [calls [c1 s1|s1 e]]; [|done].
  specialize (IH c1 s1). by destruct (loop fuel G ctx c1 s1).
Qed.

(** More fuel does not change what the loop returns. *)
Lemma loop_mono G ctx fuel : ∀ fuel' c s calls s' err,
  loop fuel G ctx c s = Returns calls s' err → fuel ≤ fuel' →
  loop fuel' G ctx c s = Returns calls s' err.
Proof.
  induction fuel as [|fuel IH]; intros fuel' c s calls s' err; simpl; [done|].
  intros Hl Hle. destruct fuel' as [|fuel']; [lia|]. simpl.
  destruct (iteration G ctx c s) as [calls1 [c1 s1|s1 e]]; [|done].
  destruct (loop fuel G ctx c1 s1) as [calls2 s2 e2| |] eqn:Hrec; [|done..].
  by rewrite (IH fuel' _ _ _ _ _ Hrec) by lia.
Qed.

Lemma reaches_trans G ctx c s pre c1 s1 pre' c2 s2 :
  reaches G ctx c s pre c1 s1 → reaches G ctx c1 s1 pre' c2 s2 →
  reaches G ctx c s (pre ++ pre') c2 s2.
Proof.
  induction 1 as [|c s calls c1 s1 calls' c3 s3 Hit _ IH]; intros H2; [done|].
  rewrite <- (assoc_L (++)). eapply reaches_pass; eauto.
Qed.

(** The calls made on the way are the nodes passed, none of them the
    sentinel. *)
Lemma reaches_calls G ctx c s pre c' s' :
  reaches G ctx c s pre c' s' → END ∉ pre.
Proof.
  induction 1 as [|c s calls c1 s1 calls' c2 s2 Hit _ IH];
    [apply not_elem_of_nil|].
  apply iteration_Continue_inv in Hit as (-> & Hc & _).
  intros [Heq%list_elem_of_singleton|?]%elem_of_app; [congruence|done].
Qed.

(** Reaching a pass costs one unit of fuel for every call made before it. *)
Lemma reaches_loop G ctx c s pre c' s' :
  reaches G ctx c s pre c' s' →
  ∀ fuel, loop (length pre + fuel) G ctx c s = logged pre (loop fuel G ctx c' s').
Proof.
  induction 1 as [|c s calls c1 s1 calls' c2 s2 Hit _ IH]; intros fuel.
  - simpl. by destruct (loop fuel G ctx c s).
  - pose proof Hit as (-> & _)%iteration_Continue_inv.
    simpl. rewrite Hit, IH.
    by destruct (loop fuel G ctx c2 s2).
Qed.

(** A loop that returns has reached a pass whose body returns. *)
Lemma loop_Returns_inv G ctx fuel : ∀ c s calls s' err,
  loop fuel G ctx c s = Returns calls s' err →
  ∃ pre c1 s1 last,
    reaches G ctx c s pre c1 s1 ∧
    iteration G ctx c1 s1 = (last, Return s' err) ∧
    calls = pre ++ last ∧ length pre < fuel.
Proof.
  induction fuel as [|fuel IH]; intros c s calls s' err; simpl; [done|].
  destruct (iteration G ctx c s) as [calls1 [c1 s1|s1 e]] eqn:Hit.
  - destruct (loop fuel G ctx c1 s1) as [calls2 s2 e2| |] eqn:Hrec; [|done..].
    simpl. intros [= <- <- <-].
    destruct (IH _ _ _ _ _ Hrec) as (pre & c2 & s3 & last & Hr & Hl & -> & Hlen).
    pose proof Hit as (-> & _)%iteration_Continue_inv.
    exists ([c] ++ pre), c2, s3, last. split_and!.
    + eapply reaches_pass; eauto.
    + done.
    + by rewrite <- (assoc_L (++)).
    + simpl. lia.
  - intros [= <- <- <-]. exists [], c, s, calls1. split_and!.
    + constructor.
    + done.
    + done.
    + simpl. lia.
Qed.

(** The loop returns what the body of the pass it has reached returns. *)
Lemma reaches_Returns G ctx c s pre c1 s1 last s' err fuel :
  reaches G ctx c s pre c1 s1 →
  iteration G ctx c1 s1 = (last, Return s' err) →
  length pre < fuel →
  loop fuel G ctx c s = Returns (pre ++ last) s' err.
Proof.
  intros Hr Hit Hlen.
  replace fuel with (length pre + S (fuel - S (length pre))) by lia.
  rewrite (reaches_loop _ _ _ _ _ _ _ Hr). simpl. by rewrite Hit.
Qed.

(** *** First matching edge *)

Lemma find_head_filter (c : string) (es : list Edge) :
  find (λ edge, bool_decide (From edge = c)) es
  = head (filter (λ edge, From edge = c) es).
Proof.
  induction es as [|e es IH]; [done|]. simpl.
  rewrite filter_cons. case_bool_decide; by destruct (decide _).
Qed.

Lemma find_app_l {A} (p : A → bool) (l1 l2 : list A) x :
  find p l1 = Some x → find p (l1 ++ l2) = Some x.
Proof.
  induction l1 as [|y l1 IH]; [done|]. simpl. by destruct (p y).
Qed.

Lemma find_app_r {A} (p : A → bool) (l1 l2 : list A) :
  find p l1 = None → find p (l1 ++ l2) = find p l2.
Proof.
  induction l1 as [|y l1 IH]; [done|]. simpl. by destruct (p y).
Qed.

Lemma find_first {A} (p : A → bool) (l1 l2 : list A) x :
  (∀ y, y ∈ l1 → p y = false) → p x = true →
  find p (l1 ++ x :: l2) = Some x.
Proof.
  intros Hl1 Hx. rewrite find_app_r; [simpl; by rewrite Hx|].
  induction l1 as [|y l1 IH]; [done|]. simpl.
  rewrite (Hl1 y) by apply list_elem_of_here.
  apply IH. intros z Hz. by apply Hl1, list_elem_of_further.
Qed.

Lemma find_none_iff (c : string) (es : list Edge) :
  find (λ edge, bool_decide (From edge = c)) es = None ↔
  ∀ edge, edge ∈ es → From edge ≠ c.
Proof.
  induction es as [|e es IH]; simpl.
  - split; [|done]. intros _ edge Hin. by apply elem_of_nil in Hin.
  - case_bool_decide as He.
    + split; [done|]. intros H. destruct (H e); [apply list_elem_of_here|done].
    + rewrite IH. split.
      * intros H edge [->|Hin]%elem_of_cons; auto.
      * intros H edge Hin. by apply H, list_elem_of_further.
Qed.

End Loop.

Section Builder.

Context {T Ctx : Type}.
Implicit Types (h : gmap loc (MessageGraph T Ctx)) (G : MessageGraph T Ctx).
Implicit Types (g : loc) (o : op T Ctx) (os : list (op T Ctx)).

Lemma effects_snoc os o G : effects (os ++ [o]) G = effect o (effects os G).
Proof. unfold effects. by rewrite foldl_app. Qed.

Lemma entry_set_snoc os o :
  entry_set (os ++ [o]) =
    match o with
    | OpSetEntryPoint name => Some name
    | _ => entry_set os
    end.
Proof. unfold entry_set. rewrite rev_unit. by destruct o. Qed.

(** Last call wins: the entry point is the argument of the last
    [SetEntryPoint] call, and is left as it was without one. *)
Lemma entryPoint_effects os G :
  entryPoint (effects os G) = default (entryPoint G) (entry_set os).
Proof.
  induction os as [|o os IH] using rev_ind; [done|].
  rewrite effects_snoc, entry_set_snoc. by destruct o.
Qed.

Lemma effect_keeps_sentinel o G :
  is_Some (nodes G !! END) → is_Some (nodes (effect o G) !! END).
Proof.
  intros HG. destruct o as [name fn| |]; [|done..].
  destruct (decide (name = END)) as [->|Hne].
  - rewrite lookup_AddNode_eq; eauto using lookup_nodes_is_Some.
  - by rewrite lookup_AddNode_ne.
Qed.

Lemma effects_keep_sentinel os G :
  is_Some (nodes G !! END) → is_Some (nodes (effects os G) !! END).
Proof.
  induction os as [|o os IH] using rev_ind; [done|].
  intros HG. rewrite effects_snoc. auto using effect_keeps_sentinel.
Qed.

(** Builder calls only append to the edges. *)
Lemma effects_keep_edge os G (e : Edge) :
  e ∈ edges G → e ∈ edges (effects os G).
Proof.
  induction os as [|o os IH] using rev_ind; [done|].
  intros HG. rewrite effects_snoc. destruct o; simpl; auto.
  apply elem_of_app. auto.
Qed.

Lemma effects_extend_edges os G :
  ∃ rest, edges (effects os G) = edges G ++ rest.
Proof.
  induction os as [|o os [rest IH]] using rev_ind.
  - exists []. by rewrite app_nil_r.
  - rewrite effects_snoc. destruct o; simpl; eauto.
    exists (rest ++ [{| From := from; To := to |}]).
    by rewrite IH, (assoc_L (++)).
Qed.

Lemma without_entry_snoc os o :
  without_entry (os ++ [o]) =
    without_entry os ++ (if is_SetEntryPoint o then [] else [o]).
Proof. unfold without_entry. rewrite List.filter_app. simpl. by destruct o. Qed.

Lemma entry_set_without_entry os : entry_set (without_entry os) = None.
Proof.
  induction os as [|o os IH] using rev_ind; [done|].
  rewrite without_entry_snoc. destruct o; simpl.
  - by rewrite entry_set_snoc.
  - by rewrite entry_set_snoc.
  - by rewrite app_nil_r.
Qed.

(** Setting the entry point last hides every earlier [SetEntryPoint]. *)
Lemma SetEntryPoint_hides name os G :
  effect (OpSetEntryPoint name) (effects os G)
  = effect (OpSetEntryPoint name) (effects (without_entry os) G).
Proof.
  induction os as [|o os IH] using rev_ind; [done|].
  rewrite without_entry_snoc, effects_snoc.
  destruct o as [n fn|from to|n]; simpl is_SetEntryPoint; cbv iota.
  - rewrite effects_snoc. simpl in *.
    by injection IH as -> ->.
  - rewrite effects_snoc. simpl in *.
    by injection IH as -> ->.
  - rewrite app_nil_r. rewrite <- IH. done.
Qed.

Lemma SetEntryPoint_same G :
  effect (OpSetEntryPoint (entryPoint G)) G = G.
Proof. by destruct G. Qed.

(** ** C8 *)

(** C8. On a graph whose node map has been made, as in every graph
    [NewMessageGraph] returns, registering [name] with [f1] and then with
    [f2] leaves the store exactly as registering it with [f2] alone does;
    neither call fails, and the node found under [name] afterwards is the
    one holding [f2].  (On the nil map of a zero-value [MessageGraph] the
    assignment in [AddNode] panics, see [AddNode_nil].) *)
Theorem AddNode_last_write_wins h g G name (f1 f2 : step T Ctx) :
  h !! g = Some G →
  is_Some (nodes G) →
  ∃ h' G',
    (AddNode g name f1 ;; AddNode g name f2) h = Some (tt, h') ∧
    AddNode g name f2 h = Some (tt, h') ∧
    h' !! g = Some G' ∧
    nodes G' !! name = Some {| Name := name; Function := f2 |}.
Proof.
  intros Hg Hm.
  exists (<[g := effect (OpAddNode name f2) G]> h), (effect (OpAddNode name f2) G).
  split_and!.
  - unfold mbind, M_bind. rewrite (AddNode_Some _ _ _ _ _ Hg Hm).
    rewrite (AddNode_Some _ _ _ _ _ (lookup_insert_eq _ _ _))
      by by apply effect_made.
    rewrite insert_insert_eq. do 2 f_equal. f_equal.
    destruct Hm as [m Hm]. simpl. rewrite Hm. simpl.
    by rewrite insert_insert_eq.
  - by apply AddNode_Some.
  - apply lookup_insert_eq.
  - by apply lookup_AddNode_eq.
Qed.

(** ** C9 *)

(** C9. [NewMessageGraph] returns a graph in which the sentinel name is
    registered with the step that returns its state and a nil error, and
    after any sequence of [AddNode], [AddEdge] and [SetEntryPoint] calls on
    that graph the sentinel name is still registered. *)
Theorem sentinel_always_registered h os :
  ∃ g h0 G0 h' G',
    NewMessageGraph h = Some (g, h0) ∧
    h0 !! g = Some G0 ∧
    nodes G0 !! END
      = Some {| Name := END; Function := λ _ state, (state, None) |} ∧
    run_ops g os h0 = Some (tt, h') ∧
    h' !! g = Some G' ∧
    is_Some (nodes G' !! END).
Proof.
  eexists _, _, _, _, _. split_and!.
  - apply NewMessageGraph_Some.
  - apply lookup_insert_eq.
  - by rewrite new_graph_lookup, decide_True.
  - apply run_ops_effects; [apply lookup_insert_eq|apply new_graph_made].
  - apply lookup_insert_eq.
  - apply effects_keep_sentinel. rewrite new_graph_lookup, decide_True; eauto.
Qed.

(** ** C2 *)

(** C2. On a graph built without any [SetEntryPoint] call, whatever nodes
    and edges were added, [Compile] returns a nil [Runnable] and
    [ErrEntryPointNotSet]; on a graph whose last [SetEntryPoint] call gave a
    non-empty name it returns a nil error and a [Runnable] that holds the
    pointer of that same graph, whatever nodes and edges were added.  In
    both cases it leaves the store as it was. *)
Theorem Compile_checks_entry_point_only h os :
  ∃ g h',
    build os h = Some (g, h') ∧
    (entry_set os = None →
     Compile g h' = Some ((None, Some ErrEntryPointNotSet), h')) ∧
    (∀ name, entry_set os = Some name → name ≠ "" →
     Compile g h' = Some ((Some {| graph := g |}, None), h')).
Proof.
  eexists _, _. split; [apply build_Some|].
  pose proof (entryPoint_effects os (@new_graph T Ctx)) as He.
  split.
  - intros Hset. rewrite (Compile_Some _ _ _ (lookup_insert_eq _ _ _)).
    rewrite Hset in He. simpl in He. by rewrite decide_True.
  - intros name Hset Hne. rewrite (Compile_Some _ _ _ (lookup_insert_eq _ _ _)).
    rewrite Hset in He. simpl in He. rewrite decide_False; [done|congruence].
Qed.

(** ** C10 *)

(** C10. After [SetEntryPoint("")] on any allocated graph, [Compile] fails
    with [ErrEntryPointNotSet]; and if the graph was built by a script, the
    store is then exactly the one the same script builds with all its
    [SetEntryPoint] calls left out. *)
Theorem empty_entry_point_is_unset h g G :
  h !! g = Some G →
  ∃ h',
    SetEntryPoint g "" h = Some (tt, h') ∧
    Compile g h' = Some ((None, Some ErrEntryPointNotSet), h') ∧
    (∀ h0 os, build os h0 = Some (g, h) →
              build (without_entry os) h0 = Some (g, h')).
Proof.
  intros Hg. eexists. split_and!.
  - by apply SetEntryPoint_Some.
  - by rewrite (Compile_Some _ _ _ (lookup_insert_eq _ _ _)).
  - intros h0 os. rewrite !build_Some. intros [= <- <-].
    rewrite lookup_insert_eq in Hg. injection Hg as <-.
    rewrite insert_insert_eq, SetEntryPoint_hides.
    rewrite <- (SetEntryPoint_same (effects (without_entry os) new_graph)) at 1.
    rewrite entryPoint_effects, entry_set_without_entry. reflexivity.
Qed.

End Builder.

Section Running.

Context {T Ctx : Type}.
Implicit Types (h : gmap loc (MessageGraph T Ctx)) (G : MessageGraph T Ctx).
Implicit Types (g : loc) (r : Runnable) (node : Node T Ctx) (ctx : Ctx).
Implicit Types (c name : string) (s state : T) (calls pre : list string).

Lemma Invoke_Some h r G fuel ctx s :
  h !! graph r = Some G →
  Invoke fuel r ctx s h = loop fuel G ctx (entryPoint G) s.
Proof. intros Hg. unfold Invoke. by rewrite Hg. Qed.

Lemma Invoke_insert h g G fuel ctx s :
  Invoke fuel {| graph := g |} ctx s (<[g := G]> h)
  = loop fuel G ctx (entryPoint G) s.
Proof. apply Invoke_Some, lookup_insert_eq. Qed.

(** *** The errors [Invoke] builds *)

Lemma Error_node_not_found name :
  Error (Errorf_w_s ErrNodeNotFound name) = "node not found: " +:+ name.
Proof. reflexivity. Qed.

Lemma Error_no_outgoing_edge name :
  Error (Errorf_w_s ErrNoOutgoingEdge name)
  = "no outgoing edge found for node: " +:+ name.
Proof. reflexivity. Qed.

Lemma errors_Is_Errorf_w_s err name : errors_Is (Errorf_w_s err name) err = true.
Proof.
  simpl. apply orb_true_iff. right.
  destruct err; simpl; by rewrite bool_decide_eq_true_2.
Qed.

Lemma errors_Is_error_in_node name cause :
  errors_Is (Errorf_error_in_node name cause) cause = true.
Proof.
  simpl. apply orb_true_iff. right.
  destruct cause; simpl; by rewrite bool_decide_eq_true_2.
Qed.

(** Only the failed lookup of [name] returns the node-not-found error of
    [name]. *)
Lemma iteration_node_not_found_inv G ctx c s last s' name :
  iteration G ctx c s
  = (last, Return s' (Some (Errorf_w_s ErrNodeNotFound name))) →
  c = name ∧ last = [] ∧ s' = s ∧ c ≠ END ∧ nodes G !! c = None.
Proof.
  unfold iteration. destruct (decide (c = END)) as [|Hc]; [done|].
  destruct (nodes G !! c) as [node|] eqn:Hn.
  - destruct (Function node ctx s) as [s1 [e|]]; [done|].
    by destruct (find _ (edges G)).
  - intros [= <- <- Hname]. by simplify_eq/=.
Qed.

(** *** Linear chains *)

Lemma linear_chain_reaches G ctx (chain : list (string * step T Ctx)) :
  ∀ c s s',
    linear_chain G c chain → thread ctx chain.*2 s = Some s' →
    reaches G ctx c s chain.*1 END s'.
Proof.
  induction chain as [|[name fn] chain IH]; intros c s s'; simpl.
  - intros -> [= <-]. constructor.
  - intros (-> & Hne & Hfn & next & Hout & Hchain).
    destruct (nodes G !! name) as [node|] eqn:Hn; [|done].
    injection Hfn as <-.
    destruct (Function node ctx s) as [s1 [e|]] eqn:Hf; [done|].
    intros Hth.
    unfold out_edges in Hout.
    destruct (filter _ (edges G)) as [|e [|e' es]] eqn:Hfilter; [done| |done].
    injection Hout as <-.
    apply (reaches_pass G ctx name s [name] (To e) s1).
    + eapply iteration_next; eauto.
      by rewrite find_head_filter, Hfilter.
    + by apply IH.
Qed.

(** ** C1 *)

(** C1. When the graph from its entry point is a linear chain of registered
    nodes that ends at the sentinel, each node with a single outgoing edge,
    and the steps of the chain succeed one after the other on the threaded
    state, [Invoke] calls exactly the nodes of the chain, in chain order,
    and returns the state the last step produced with a nil error, given
    fuel for one pass per node and the final pass. *)
Theorem Invoke_linear_chain h r G ctx (chain : list (string * step T Ctx))
    s s' fuel :
  h !! graph r = Some G →
  linear_chain G (entryPoint G) chain →
  thread ctx chain.*2 s = Some s' →
  length chain < fuel →
  Invoke fuel r ctx s h = Returns chain.*1 s' None.
Proof.
  intros Hg Hchain Hth Hfuel. rewrite (Invoke_Some _ _ _ _ _ _ Hg).
  rewrite <- (app_nil_r chain.*1).
  eapply reaches_Returns.
  - by apply linear_chain_reaches.
  - apply iteration_END.
  - by rewrite length_fmap.
Qed.

(** ** C3 *)

(** C3. No run of [Invoke], on any graph and any state, calls the node
    stored under the sentinel name; and on a graph whose node map has been
    made, as in every graph [NewMessageGraph] returns, overwriting the
    sentinel's node with any step succeeds and leaves every result of
    [Invoke] as it was. *)
Theorem sentinel_step_never_called h g G (fn : step T Ctx) fuel ctx s :
  h !! g = Some G →
  (∀ calls s' err,
     Invoke fuel {| graph := g |} ctx s h = Returns calls s' err →
     END ∉ calls) ∧
  (is_Some (nodes G) →
   ∃ h',
     AddNode g END fn h = Some (tt, h') ∧
     Invoke fuel {| graph := g |} ctx s h' = Invoke fuel {| graph := g |} ctx s h ∧
     ∀ calls s' err,
       Invoke fuel {| graph := g |} ctx s h' = Returns calls s' err →
       END ∉ calls).
Proof.
  intros Hg.
  assert (∀ calls s' err,
            Invoke fuel {| graph := g |} ctx s h = Returns calls s' err →
            END ∉ calls) as Hnever.
  { intros calls s' err. rewrite (Invoke_Some _ _ G) by done.
    intros (pre & c1 & s1 & last & Hr & Hit & -> & _)%loop_Returns_inv.
    apply reaches_calls in Hr. apply iteration_calls in Hit.
    rewrite elem_of_app. intros [?|Hin]; [done|].
    destruct Hit as [->|[-> ?]].
    - by apply elem_of_nil in Hin.
    - by apply list_elem_of_singleton in Hin. }
  split; [done|].
  intros Hm. eexists. split; [by apply AddNode_Some|].
  assert (Invoke fuel {| graph := g |} ctx s
            (<[g := effect (OpAddNode END fn) G]> h)
          = Invoke fuel {| graph := g |} ctx s h) as Heq.
  { rewrite Invoke_insert, (Invoke_Some _ _ G) by done.
    apply loop_congr; [|done].
    intros c Hc. by apply lookup_AddNode_ne. }
  split; [done|].
  intros calls s' err. rewrite Heq. apply Hnever.
Qed.

(** ** C4 *)

(** C4. When the loop reaches a registered node, not the sentinel, whose step
    fails on the current state, [Invoke] returns at once: that node is the
    last one called, the state returned is the one the step returned with
    its error, and the error wraps the step's error under the message
    "error in node <name>: <underlying message>". *)
Theorem failing_step_aborts h r G ctx s0 pre name s node s' cause fuel :
  h !! graph r = Some G →
  reaches G ctx (entryPoint G) s0 pre name s →
  name ≠ END →
  nodes G !! name = Some node →
  Function node ctx s = (s', Some cause) →
  length pre < fuel →
  ∃ e,
    Invoke fuel r ctx s0 h = Returns (pre ++ [name]) s' (Some e) ∧
    Error e = "error in node " +:+ name +:+ ": " +:+ Error cause ∧
    Unwrap e = Some cause ∧
    errors_Is e cause = true.
Proof.
  intros Hg Hr Hne Hn Hf Hfuel.
  exists (Errorf_error_in_node name cause). split_and!; [|done..|].
  - rewrite (Invoke_Some _ _ _ _ _ _ Hg).
    eapply reaches_Returns; eauto using iteration_fails.
  - apply errors_Is_error_in_node.
Qed.

(** ** C5 *)

(** C5. On a graph in which the sentinel is registered, as in every graph
    [NewMessageGraph] made, [AddEdge] succeeds whether or not its target is
    registered and appends the edge, leaving nodes and entry point as they
    were.  After any further builder calls that leave the target
    unregistered and an entry point set, the graph still holds the edge,
    [Compile] succeeds, and [Invoke] returns the node-not-found error of the
    target exactly when the loop reaches that name, with the state the loop
    holds at that moment and after the calls made until then.  An
    unregistered entry point is the case of reaching it at once; and when
    the edge is the first one that leaves its source, a walk that calls the
    source with success goes on to the target and fails there. *)
Theorem dangling_edge_fails_when_reached h g G from to :
  h !! g = Some G →
  is_Some (nodes G !! END) →
  ∃ h' G',
    AddEdge g from to h = Some (tt, h') ∧
    h' !! g = Some G' ∧
    nodes G' = nodes G ∧
    edges G' = edges G ++ [{| From := from; To := to |}] ∧
    entryPoint G' = entryPoint G ∧
    ∀ os h'' G'',
      run_ops g os h' = Some (tt, h'') →
      h'' !! g = Some G'' →
      nodes G'' !! to = None →
      entryPoint G'' ≠ "" →
      {| From := from; To := to |} ∈ edges G'' ∧
      Compile g h'' = Some ((Some {| graph := g |}, None), h'') ∧
      Error (Errorf_w_s ErrNodeNotFound to) = "node not found: " +:+ to ∧
      errors_Is (Errorf_w_s ErrNodeNotFound to) ErrNodeNotFound = true ∧
      (∀ ctx s0 calls s,
         (∃ fuel, Invoke fuel {| graph := g |} ctx s0 h''
                  = Returns calls s (Some (Errorf_w_s ErrNodeNotFound to)))
         ↔ reaches G'' ctx (entryPoint G'') s0 calls to s) ∧
      (entryPoint G'' = to →
       ∀ ctx s0, Invoke 1 {| graph := g |} ctx s0 h''
                 = Returns [] s0 (Some (Errorf_w_s ErrNodeNotFound to))) ∧
      (∀ ctx s0 pre s node s',
         (∀ e, e ∈ edges G → From e ≠ from) →
         reaches G'' ctx (entryPoint G'') s0 pre from s →
         from ≠ END →
         nodes G'' !! from = Some node →
         Function node ctx s = (s', None) →
         ∀ fuel, S (length pre) < fuel →
           Invoke fuel {| graph := g |} ctx s0 h''
           = Returns (pre ++ [from]) s' (Some (Errorf_w_s ErrNodeNotFound to))).
Proof.
  intros Hg HEND.
  exists (<[g := effect (OpAddEdge from to) G]> h), (effect (OpAddEdge from to) G).
  split_and!; [by apply AddEdge_Some|apply lookup_insert_eq|done..|].
  intros os h'' G'' Hrun Hg'' Hto Hentry.
  apply (run_ops_returns _ _ _ _ _ (lookup_insert_eq _ _ _)) in Hrun as ->.
  rewrite lookup_insert_eq in Hg''. injection Hg'' as <-.
  assert (to ≠ END) as Hne.
  { intros Heq.
    destruct (effects_keep_sentinel os _
                (effect_keeps_sentinel (OpAddEdge from to) _ HEND)) as [x Hx].
    rewrite <- Heq in Hx. simpl in Hx. congruence. }
  split_and!.
  - apply effects_keep_edge. simpl. apply elem_of_app. right.
    apply list_elem_of_here.
  - rewrite (Compile_Some _ _ _ (lookup_insert_eq _ _ _)).
    by rewrite decide_False.
  - done.
  - apply errors_Is_Errorf_w_s.
  - intros ctx s0 calls s.
    setoid_rewrite Invoke_insert. split.
    + intros [fuel (pre & c1 & s1 & last & Hr & Hit & -> & _)%loop_Returns_inv].
      apply iteration_node_not_found_inv in Hit as (-> & -> & -> & _).
      by rewrite app_nil_r.
    + intros Hr. exists (S (length calls)).
      rewrite <- (app_nil_r calls) at 2.
      eapply reaches_Returns; [done| |lia].
      by apply iteration_not_found.
  - intros Heq ctx s0.
    rewrite Invoke_insert. simpl. rewrite Heq. by rewrite iteration_not_found.
  - intros ctx s0 pre s node s' Hfirst Hr Hfrom Hn Hf fuel Hfuel.
    rewrite Invoke_insert.
    destruct (effects_extend_edges os (effect (OpAddEdge from to) G))
      as [rest Hedges].
    assert (reaches (effects os (effect (OpAddEdge from to) G)) ctx
              (entryPoint (effects os (effect (OpAddEdge from to) G)))
              s0 (pre ++ [from]) to s') as Hr'.
    { eapply reaches_trans; [exact Hr|].
      apply (reaches_pass _ _ _ _ [from] to s' []); [|constructor].
      eapply (iteration_next _ _ _ _ _ _ {| From := from; To := to |});
        [done..|].
      rewrite Hedges. cbn [effect edges]. rewrite <- (assoc_L (++)).
      apply find_first.
      - intros y Hy. apply bool_decide_eq_false_2. auto.
      - by apply bool_decide_eq_true_2. }
    rewrite <- (app_nil_r (pre ++ [from])).
    eapply reaches_Returns; [exact Hr'| |].
    + by apply iteration_not_found.
    + rewrite length_app. simpl. lia.
Qed.

(** ** C6 *)

(** C6. When the loop reaches a registered node, not the sentinel, whose step
    succeeds and no edge of the graph leaves that node, [Invoke] returns the
    no-outgoing-edge error of that node's name, with the state the step
    returned. *)
Theorem no_outgoing_edge_fails h r G ctx s0 pre name s node s' fuel :
  h !! graph r = Some G →
  reaches G ctx (entryPoint G) s0 pre name s →
  name ≠ END →
  nodes G !! name = Some node →
  Function node ctx s = (s', None) →
  (∀ edge, edge ∈ edges G → From edge ≠ name) →
  length pre < fuel →
  Invoke fuel r ctx s0 h
  = Returns (pre ++ [name]) s' (Some (Errorf_w_s ErrNoOutgoingEdge name)) ∧
  Error (Errorf_w_s ErrNoOutgoingEdge name)
  = "no outgoing edge found for node: " +:+ name ∧
  errors_Is (Errorf_w_s ErrNoOutgoingEdge name) ErrNoOutgoingEdge = true.
Proof.
  intros Hg Hr Hne Hn Hf Hedges Hfuel. split_and!; [|done|].
  - rewrite (Invoke_Some _ _ _ _ _ _ Hg).
    eapply reaches_Returns; eauto.
    eapply iteration_no_edge; eauto. by apply find_none_iff.
  - apply errors_Is_Errorf_w_s.
Qed.

(** ** C7 *)

(** C7. When [e] is the first edge, in declaration order, that leaves
    [from], a pass at [from] whose step succeeds goes on to the target of
    [e]; appending a further edge from [from] succeeds, leaves that pass
    going to the target of [e], and changes no result of [Invoke]. *)
Theorem first_declared_edge_wins h g G from to before e after :
  h !! g = Some G →
  edges G = before ++ e :: after →
  From e = from →
  (∀ e', e' ∈ before → From e' ≠ from) →
  ∃ h' G',
    AddEdge g from to h = Some (tt, h') ∧
    h' !! g = Some G' ∧
    edges G' = before ++ e :: after ++ [{| From := from; To := to |}] ∧
    (∀ ctx s node s',
       from ≠ END → nodes G !! from = Some node →
       Function node ctx s = (s', None) →
       iteration G ctx from s = ([from], Continue (To e) s') ∧
       iteration G' ctx from s = ([from], Continue (To e) s')) ∧
    (∀ fuel ctx s,
       Invoke fuel {| graph := g |} ctx s h'
       = Invoke fuel {| graph := g |} ctx s h).
Proof.
  intros Hg Hedges Hfrom Hbefore.
  assert (∀ rest, find (λ edge, bool_decide (From edge = from))
                    (before ++ e :: rest) = Some e) as Hfirst.
  { intros rest. apply find_first.
    - intros y Hy. apply bool_decide_eq_false_2. auto.
    - by apply bool_decide_eq_true_2. }
  exists (<[g := effect (OpAddEdge from to) G]> h), (effect (OpAddEdge from to) G).
  split_and!.
  - by apply AddEdge_Some.
  - apply lookup_insert_eq.
  - simpl. rewrite Hedges. by rewrite <- (assoc_L (++)).
  - intros ctx s node s' Hne Hn Hf. split.
    + eapply iteration_next; eauto. rewrite Hedges. apply Hfirst.
    + eapply iteration_next; eauto. simpl. rewrite Hedges.
      rewrite <- (assoc_L (++)). apply Hfirst.
  - intros fuel ctx s.
    rewrite Invoke_insert, (Invoke_Some _ _ G) by done.
    apply loop_congr; [done|].
    intros c. simpl.
    destruct (find (λ e, bool_decide (From e = c)) (edges G)) as [e1|] eqn:Hfind.
    + by apply find_app_l.
    + rewrite find_app_r by done. simpl.
      rewrite bool_decide_eq_false_2; [done|].
      intros <-. rewrite Hedges, Hfirst in Hfind. done.
Qed.

End Running.

(** * The test cases and concrete instances *)

Module Cases.

Import Tests.

(** Every script run on the empty store yields [store]. *)
Lemma build_store os : build os ∅ = Some (1%positive, store os).
Proof. rewrite build_Some. reflexivity. Qed.

Example case_simple_graph :
  run_case simple_graph 3 ["Input"]
  = Some (inl (Returns ["node1"; "node2"] ["Input"; "Node 1"; "Node 2"] None)).
Proof. vm_compute. reflexivity. Qed.

Example case_entry_point_not_set :
  run_case entry_point_not_set 3 [] = Some (inr "entry point not set").
Proof. vm_compute. reflexivity. Qed.

Example case_node_not_found :
  (λ e, match e with
        | inl (Returns _ _ (Some e)) => Some (Error e)
        | _ => None
        end) <$> run_case node_not_found 3 []
  = Some (Some "node not found: node2").
Proof. vm_compute. reflexivity. Qed.

Example case_no_outgoing_edge :
  (λ e, match e with
        | inl (Returns _ _ (Some e)) => Some (Error e)
        | _ => None
        end) <$> run_case no_outgoing_edge 3 []
  = Some (Some "no outgoing edge found for node: node1").
Proof. vm_compute. reflexivity. Qed.

Example case_error_in_node :
  (λ e, match e with
        | inl (Returns _ _ (Some e)) => Some (Error e)
        | _ => None
        end) <$> run_case error_in_node 3 []
  = Some (Some "error in node node1: node error").
Proof. vm_compute. reflexivity. Qed.

(** The [Runnable] holds the pointer, not a copy of the struct: it runs the
    graph as it is when [Invoke] is called. *)
Example case_edge_added_after_compile :
  edge_added_after_compile 2 ["Input"] = Some (Returns ["node1"] ["Input"] None).
Proof. vm_compute. reflexivity. Qed.

End Cases.

(** * Instances of the theorems on the test graphs *)

Section Instances.

Import Tests.

Lemma Invoke_linear_chain_witness :
  Invoke 3 r1 tt ["Input"] (store simple_graph)
  = Returns ["node1"; "node2"] ["Input"; "Node 1"; "Node 2"] None.
Proof.
  apply (Invoke_linear_chain (store simple_graph) r1
           (effects simple_graph new_graph) tt
           [("node1", append_msg "Node 1"); ("node2", append_msg "Node 2")]
           ["Input"] ["Input"; "Node 1"; "Node 2"] 3).
  - reflexivity.
  - simpl. split_and!; try done.
    exists "node2". split; [reflexivity|]. split_and!; try done.
    exists END. split; reflexivity.
  - reflexivity.
  - simpl. lia.
Defined.

Lemma Compile_checks_entry_point_only_witness :
  (∃ g h', build entry_point_not_set ∅ = Some (g, h') ∧
           Compile g h' = Some ((None, Some ErrEntryPointNotSet), h')) ∧
  (∃ g h', build simple_graph ∅ = Some (g, h') ∧
           Compile g h' = Some ((Some {| graph := g |}, None), h')).
Proof.
  split.
  - destruct (Compile_checks_entry_point_only ∅ entry_point_not_set)
      as (g & h' & Hbuild & Hunset & _).
    exists g, h'. split; [exact Hbuild|]. apply Hunset. reflexivity.
  - destruct (Compile_checks_entry_point_only ∅ simple_graph)
      as (g & h' & Hbuild & _ & Hset).
    exists g, h'. split; [exact Hbuild|]. apply (Hset "node1"); [reflexivity|done].
Defined.

Lemma sentinel_step_never_called_witness :
  (∀ calls s' err,
     Invoke 3 r1 tt ["Input"] (store simple_graph) = Returns calls s' err →
     END ∉ calls) ∧
  ∃ h',
    AddNode 1%positive END (fail_with "sentinel") (store simple_graph)
    = Some (tt, h') ∧
    Invoke 3 r1 tt ["Input"] h' = Invoke 3 r1 tt ["Input"] (store simple_graph) ∧
    ∀ calls s' err,
      Invoke 3 r1 tt ["Input"] h' = Returns calls s' err → END ∉ calls.
Proof.
  destruct (sentinel_step_never_called (store simple_graph) 1%positive
              (effects simple_graph new_graph) (fail_with "sentinel")
              3 tt ["Input"]) as [Hnever Hover].
  - reflexivity.
  - split; [exact Hnever|]. apply Hover. eexists. reflexivity.
Defined.

Lemma failing_step_aborts_witness :
  ∃ e,
    Invoke 2 r1 tt ["Input"] (store fails_second)
    = Returns ["node1"; "node2"] [] (Some e) ∧
    Error e = "error in node node2: node error" ∧
    Unwrap e = Some (errorString "node error") ∧
    errors_Is e (errorString "node error") = true.
Proof.
  apply (failing_step_aborts (store fails_second) r1
           (effects fails_second new_graph) tt ["Input"] ["node1"] "node2"
           ["Input"; "Node 1"]
           {| Name := "node2"; Function := fail_with "node error" |}
           [] (errorString "node error") 2).
  - reflexivity.
  - apply (reaches_pass _ _ _ _ ["node1"] "node2" ["Input"; "Node 1"] []);
      [reflexivity|constructor].
  - done.
  - reflexivity.
  - reflexivity.
  - simpl. lia.
Defined.

Lemma dangling_edge_fails_when_reached_witness :
  ∃ h' h'' fuel,
    AddEdge 1%positive "node1" "node2" (store no_outgoing_edge) = Some (tt, h') ∧
    run_ops 1%positive [OpAddEdge "node2" END] h' = Some (tt, h'') ∧
    Compile 1%positive h'' = Some ((Some r1, None), h'') ∧
    Invoke fuel r1 tt ["Input"] h''
    = Returns ["node1"] ["Input"] (Some (Errorf_w_s ErrNodeNotFound "node2")).
Proof.
  destruct (dangling_edge_fails_when_reached (store no_outgoing_edge) 1%positive
              (effects no_outgoing_edge new_graph) "node1" "node2")
    as (h' & G' & Hadd & Hg' & _ & _ & _ & Hafter).
  - reflexivity.
  - eexists. reflexivity.
  - pose proof Hadd as Hh'.
    rewrite (AddEdge_Some _ _ (effects no_outgoing_edge new_graph)) in Hh'
      by reflexivity.
    injection Hh' as <-.
    rewrite lookup_insert_eq in Hg'. injection Hg' as <-.
    destruct (Hafter [OpAddEdge "node2" END] _ _ eq_refl eq_refl)
      as (_ & Hcompile & _ & _ & Hiff & _ & _).
    + reflexivity.
    + done.
    + destruct (proj2 (Hiff tt ["Input"] ["node1"] ["Input"])) as [fuel Hinv].
      * apply (reaches_pass _ _ _ _ ["node1"] "node2" ["Input"] []);
          [reflexivity|constructor].
      * eexists _, _, fuel. split_and!; [exact Hadd|reflexivity|exact Hcompile|].
        exact Hinv.
Defined.

Lemma no_outgoing_edge_fails_witness :
  Invoke 1 r1 tt ["Input"] (store no_outgoing_edge)
  = Returns ["node1"] ["Input"] (Some (Errorf_w_s ErrNoOutgoingEdge "node1")) ∧
  Error (Errorf_w_s ErrNoOutgoingEdge "node1")
  = "no outgoing edge found for node: node1" ∧
  errors_Is (Errorf_w_s ErrNoOutgoingEdge "node1") ErrNoOutgoingEdge = true.
Proof.
  apply (no_outgoing_edge_fails (store no_outgoing_edge) r1
           (effects no_outgoing_edge new_graph) tt ["Input"] [] "node1"
           ["Input"] {| Name := "node1"; Function := keep |} ["Input"] 1).
  - reflexivity.
  - constructor.
  - done.
  - reflexivity.
  - reflexivity.
  - intros edge Hin. simpl in Hin. by apply elem_of_nil in Hin.
  - simpl. lia.
Defined.

Lemma first_declared_edge_wins_witness :
  ∃ h' G',
    AddEdge 1%positive "node1" END (store simple_graph) = Some (tt, h') ∧
    h' !! 1%positive = Some G' ∧
    edges G' = [ {| From := "node1"; To := "node2" |};
                 {| From := "node2"; To := END |};
                 {| From := "node1"; To := END |} ] ∧
    (∀ ctx s node s',
       "node1" ≠ END →
       nodes (effects simple_graph new_graph) !! "node1" = Some node →
       Function node ctx s = (s', None) →
       iteration (effects simple_graph new_graph) ctx "node1" s
       = (["node1"], Continue "node2" s') ∧
       iteration G' ctx "node1" s = (["node1"], Continue "node2" s')) ∧
    (∀ fuel ctx s,
       Invoke fuel r1 ctx s h' = Invoke fuel r1 ctx s (store simple_graph)).
Proof.
  apply (first_declared_edge_wins (store simple_graph) 1%positive
           (effects simple_graph new_graph) "node1" END
           [] {| From := "node1"; To := "node2" |}
           [ {| From := "node2"; To := END |} ]).
  - reflexivity.
  - reflexivity.
  - reflexivity.
  - intros e' Hin. by apply elem_of_nil in Hin.
Defined.

Lemma AddNode_last_write_wins_witness :
  ∃ h' G',
    (AddNode 1%positive "node1" keep ;;
     AddNode 1%positive "node1" (append_msg "again")) (store simple_graph)
    = Some (tt, h') ∧
    AddNode 1%positive "node1" (append_msg "again") (store simple_graph)
    = Some (tt, h') ∧
    h' !! 1%positive = Some G' ∧
    nodes G' !! "node1"
    = Some {| Name := "node1"; Function := append_msg "again" |}.
Proof.
  apply (AddNode_last_write_wins (store simple_graph) 1%positive
           (effects simple_graph new_graph)).
  - reflexivity.
  - eexists. reflexivity.
Defined.

Lemma empty_entry_point_is_unset_witness :
  ∃ h',
    SetEntryPoint 1%positive "" (store simple_graph) = Some (tt, h') ∧
    Compile 1%positive h' = Some ((None, Some ErrEntryPointNotSet), h') ∧
    (∀ h0 os, build os h0 = Some (1%positive, store simple_graph) →
              build (without_entry os) h0 = Some (1%positive, h')).
Proof.
  apply (empty_entry_point_is_unset (store simple_graph) 1%positive
           (effects simple_graph new_graph)).
  reflexivity.
Defined.

End Instances.

(** * Further properties of [Invoke] *)

Section Paths.

Context {T Ctx : Type}.
Implicit Types (h : gmap loc (MessageGraph T Ctx)) (G : MessageGraph T Ctx).
Implicit Types (g : loc) (r : Runnable) (node : Node T Ctx) (ctx : Ctx).
Implicit Types (c name : string) (s state : T) (calls pre : list string).

(** The four ways in which a pass leaves [Invoke]. *)
Lemma iteration_Return_inv G ctx c s last s' err :
  iteration G ctx c s = (last, Return s' err) →
  (c = END ∧ last = [] ∧ s' = s ∧ err = None) ∨
  (c ≠ END ∧ nodes G !! c = None ∧ last = [] ∧ s' = s ∧
   err = Some (Errorf_w_s ErrNodeNotFound c)) ∨
  (c ≠ END ∧ last = [c] ∧ ∃ node cause,
     nodes G !! c = Some node ∧ Function node ctx s = (s', Some cause) ∧
     err = Some (Errorf_error_in_node c cause)) ∨
  (c ≠ END ∧ last = [c] ∧ ∃ node,
     nodes G !! c = Some node ∧ Function node ctx s = (s', None) ∧
     find (λ edge, bool_decide (From edge = c)) (edges G) = None ∧
     err = Some (Errorf_w_s ErrNoOutgoingEdge c)).
Proof.
  unfold iteration. destruct (decide (c = END)) as [->|Hc].
  { intros [= <- <- <-]. by left. }
  destruct (nodes G !! c) as [node|] eqn:Hn.
  - destruct (Function node ctx s) as [s1 [e|]] eqn:Hf.
    + intros [= <- <- <-]. right; right; left. eauto 10.
    + destruct (find _ (edges G)) eqn:Hfind; [done|].
      intros [= <- <- <-]. right; right; right. eauto 10.
  - intros [= <- <- <-]. right; left. eauto.
Qed.

(** The edge a pass follows is an edge of the graph. *)
Lemma iteration_Continue_edge G ctx c s calls c' s' :
  iteration G ctx c s = (calls, Continue c' s') →
  {| From := c; To := c' |} ∈ edges G.
Proof.
  intros (_ & _ & node & edge & _ & _ & Hfind & <-)%iteration_Continue_inv.
  apply find_some in Hfind as [Hin Hfrom%bool_decide_eq_true_1].
  apply list_elem_of_In in Hin. destruct edge. simpl in *. by subst.
Qed.

(** The target of a pass depends on the name of the current node only. *)
Lemma iteration_Continue_target G ctx ctx' c s s' calls1 calls2 c1 c2 s1 s2 :
  iteration G ctx c s = (calls1, Continue c1 s1) →
  iteration G ctx' c s' = (calls2, Continue c2 s2) →
  c1 = c2.
Proof.
  intros (_ & _ & ? & e1 & _ & _ & Hf1 & <-)%iteration_Continue_inv.
  intros (_ & _ & ? & e2 & _ & _ & Hf2 & <-)%iteration_Continue_inv.
  congruence.
Qed.

Lemma reaches_snoc G ctx c s pre c1 s1 calls c2 s2 :
  reaches G ctx c s pre c1 s1 →
  iteration G ctx c1 s1 = (calls, Continue c2 s2) →
  reaches G ctx c s (pre ++ calls) c2 s2.
Proof.
  intros Hr Hit. eapply reaches_trans; [done|].
  rewrite <- (app_nil_r calls). eapply reaches_pass; [done|constructor].
Qed.

(** The last pass before a point that the loop reaches. *)
Lemma reaches_last_inv G ctx c s pre c' s' :
  reaches G ctx c s pre c' s' →
  (pre = [] ∧ c = c' ∧ s = s') ∨
  ∃ pre0 name s1,
    pre = pre0 ++ [name] ∧ reaches G ctx c s pre0 name s1 ∧
    iteration G ctx name s1 = ([name], Continue c' s').
Proof.
  induction 1 as [|c s calls c1 s1 calls' c2 s2 Hit Hr IH]; [by left|].
  right. pose proof Hit as (-> & _)%iteration_Continue_inv.
  destruct IH as [(-> & -> & ->)|(pre0 & name & s3 & -> & Hr0 & Hlast)].
  - exists [], c, s. split_and!; [done|constructor|done].
  - exists ([c] ++ pre0), name, s3. split_and!; [by rewrite (assoc_L (++))| |done].
    eapply reaches_pass; eauto.
Qed.

(** A loop that returns a nil error has reached the sentinel. *)
Lemma loop_success_reaches G ctx fuel c s calls s' :
  loop fuel G ctx c s = Returns calls s' None →
  reaches G ctx c s calls END s'.
Proof.
  intros (pre & c1 & s1 & last & Hr & Hit & -> & _)%loop_Returns_inv.
  apply iteration_Return_inv in Hit
    as [(-> & -> & -> & _)|[(_ & _ & _ & _ & ?)|[(_ & _ & ? & ? & _ & _ & ?)
       |(_ & _ & ? & _ & _ & _ & ?)]]]; try done.
  by rewrite app_nil_r.
Qed.

(** ** X1 *)

(** X1. A call of [Invoke] that returns a nil error either started at the
    sentinel, called nothing and returns its input, or ended with a node
    whose step succeeded, whose result is the state returned, and from which
    the graph has an edge to the sentinel. *)
Theorem Invoke_success_ends_at_END h r G fuel ctx s0 calls s :
  h !! graph r = Some G →
  Invoke fuel r ctx s0 h = Returns calls s None →
  (entryPoint G = END ∧ calls = [] ∧ s = s0) ∨
  ∃ pre name node s1,
    calls = pre ++ [name] ∧
    nodes G !! name = Some node ∧
    Function node ctx s1 = (s, None) ∧
    {| From := name; To := END |} ∈ edges G.
Proof.
  intros Hg. rewrite (Invoke_Some _ _ _ _ _ _ Hg).
  intros Hr%loop_success_reaches.
  apply reaches_last_inv in Hr
    as [(-> & -> & ->)|(pre0 & name & s1 & -> & _ & Hlast)]; [by left|].
  right. exists pre0, name.
  pose proof (iteration_Continue_edge _ _ _ _ _ _ _ Hlast) as Hedge.
  apply iteration_Continue_inv in Hlast as (_ & _ & node & _ & Hn & Hf & _).
  eauto 10.
Qed.

(** ** X2 *)

(** X2. Every non-nil error that [Invoke] returns is one of three: the
    node-not-found error of an unregistered name other than the sentinel,
    with no call made under that name; the wrapped error of the step called
    last, with the state that step returned; or the no-outgoing-edge error
    of the node called last, which no edge of the graph leaves. *)
Theorem Invoke_error_forms h r G fuel ctx s0 calls s e :
  h !! graph r = Some G →
  Invoke fuel r ctx s0 h = Returns calls s (Some e) →
  (∃ name,
     e = Errorf_w_s ErrNodeNotFound name ∧
     name ≠ END ∧ nodes G !! name = None ∧ name ∉ calls) ∨
  (∃ name cause node s1,
     e = Errorf_error_in_node name cause ∧
     last calls = Some name ∧
     nodes G !! name = Some node ∧ Function node ctx s1 = (s, Some cause)) ∨
  (∃ name,
     e = Errorf_w_s ErrNoOutgoingEdge name ∧
     last calls = Some name ∧
     ∀ edge, edge ∈ edges G → From edge ≠ name).
Proof.
  intros Hg. rewrite (Invoke_Some _ _ _ _ _ _ Hg).
  intros (pre & c1 & s1 & lst & Hr & Hit & -> & _)%loop_Returns_inv.
  apply iteration_Return_inv in Hit
    as [(_ & _ & _ & ?)|[(Hc & Hn & -> & -> & [= ->])
       |[(Hc & -> & node & cause & Hn & Hf & [= ->])
       |(Hc & -> & node & Hn & Hf & Hfind & [= ->])]]]; [done| | |].
  - left. exists c1. split_and!; [done..|].
    rewrite app_nil_r. clear Hc. induction Hr as [|c s calls c2 s2 calls' c3 s3 Hit _ IH].
    + apply not_elem_of_nil.
    + specialize (IH Hn).
      apply iteration_Continue_inv in Hit as (-> & _ & ? & _ & Hn' & _).
      intros [->%list_elem_of_singleton|?]%elem_of_app; [congruence|done].
  - right; left. exists c1, cause, node, s1. by rewrite last_snoc.
  - right; right. exists c1. rewrite last_snoc. split_and!; [done..|].
    by apply find_none_iff.
Qed.

End Paths.

Section Routes.

Context {T Ctx : Type}.
Implicit Types (h : gmap loc (MessageGraph T Ctx)) (G : MessageGraph T Ctx).
Implicit Types (g : loc) (r : Runnable) (node : Node T Ctx) (ctx : Ctx).
Implicit Types (c name : string) (s state : T) (calls pre : list string).

(** The names on the way to a point that the loop reaches: they start at
    the start, every one of them is a registered node other than the
    sentinel, and each next one is the target of an edge from the one
    before. *)
Lemma reaches_path G ctx c s pre c' s' :
  reaches G ctx c s pre c' s' →
  (∀ name, name ∈ pre → name ≠ END ∧ is_Some (nodes G !! name)) ∧
  head (pre ++ [c']) = Some c ∧
  (∀ i a b, (pre ++ [c']) !! i = Some a → (pre ++ [c']) !! S i = Some b →
            {| From := a; To := b |} ∈ edges G).
Proof.
  induction 1 as [|c s calls c1 s1 calls' c2 s2 Hit _ (IHin & IHhd & IHedge)].
  - split_and!; [|done|].
    + intros name Hin. by apply elem_of_nil in Hin.
    + intros i a b _ Hb. by destruct i.
  - pose proof (iteration_Continue_edge _ _ _ _ _ _ _ Hit) as Hedge.
    apply iteration_Continue_inv in Hit as (-> & Hc & node & _ & Hn & _).
    split_and!; [|done|].
    + intros name [->%list_elem_of_singleton|Hin]%elem_of_app; eauto.
    + intros [|i] a b; simpl.
      * intros [= <-] Hb. rewrite <- head_lookup, IHhd in Hb. by injection Hb as <-.
      * apply IHedge.
Qed.

(** Two walks from the same node of the same graph, whatever their states
    and contexts: the shorter one is the start of the longer one. *)
Lemma reaches_prefix G ctx ctx' c s pre c1 s1 :
  reaches G ctx c s pre c1 s1 →
  ∀ s' pre' c1' s1', reaches G ctx' c s' pre' c1' s1' →
    length pre ≤ length pre' →
    ∃ q t, pre' = pre ++ q ∧ reaches G ctx' c1 t q c1' s1'.
Proof.
  induction 1 as [|c s calls c2 s2 calls' c3 s3 Hit _ IH];
    intros s' pre' c1' s1' Hr' Hlen.
  - by exists pre', s'.
  - pose proof Hit as (-> & _)%iteration_Continue_inv.
    destruct Hr' as [|c s' calls2 c2' s2' calls2' c3' s3' Hit' Hr']; simpl in Hlen; [lia|].
    pose proof Hit' as (-> & _)%iteration_Continue_inv.
    rewrite (iteration_Continue_target _ _ _ _ _ _ _ _ _ _ _ _ Hit' Hit) in Hr'.
    simpl in Hlen. destruct (IH _ _ _ _ Hr') as (q & t & -> & Hq); [lia|].
    exists q, t. by rewrite (assoc_L (++)).
Qed.

(** The walk from a node to the sentinel is the same for all states. *)
Lemma reaches_END_unique G ctx ctx' c s s' pre pre' t t' :
  reaches G ctx c s pre END t → reaches G ctx' c s' pre' END t' → pre = pre'.
Proof.
  intros H1 H2.
  assert (∀ ctx0 ctx1 c0 u u' p p' v v',
            reaches G ctx0 c0 u p END v → reaches G ctx1 c0 u' p' END v' →
            length p ≤ length p' → p = p') as Hle.
  { intros ctx0 ctx1 c0 u u' p p' v v' Hp Hp' Hlen.
    destruct (reaches_prefix _ _ _ _ _ _ _ _ Hp _ _ _ _ Hp' Hlen)
      as (q & w & -> & Hq).
    inversion Hq as [|? ? ? ? ? ? ? ? Hit]; subst; [by rewrite app_nil_r|].
    by rewrite iteration_END in Hit. }
  destruct (decide (length pre ≤ length pre')).
  - eapply Hle; eauto.
  - symmetry. eapply Hle; eauto. lia.
Qed.

(** From a name called on the way, the walk goes on to the same point. *)
Lemma reaches_from_call G ctx c s pre c' s' name :
  reaches G ctx c s pre c' s' → name ∈ pre →
  ∃ p1 p2 s1, pre = p1 ++ p2 ∧ reaches G ctx name s1 p2 c' s'.
Proof.
  induction 1 as [|c s calls c1 s1 calls' c2 s2 Hit Hr IH].
  - intros Hin. by apply elem_of_nil in Hin.
  - pose proof Hit as (-> & _)%iteration_Continue_inv.
    intros [->%list_elem_of_singleton|Hin]%elem_of_app.
    + exists [], ([c] ++ calls'), s. split; [done|]. eapply reaches_pass; eauto.
    + destruct (IH Hin) as (p1 & p2 & s3 & -> & Hp2).
      exists ([c] ++ p1), p2, s3. split; [by rewrite (assoc_L (++))|done].
Qed.

Lemma reaches_END_NoDup G ctx c s pre c' s' :
  reaches G ctx c s pre c' s' → c' = END → NoDup pre.
Proof.
  induction 1 as [|c s calls c1 s1 calls' c2 s2 Hit Hr IH]; intros ->.
  - constructor.
  - pose proof Hit as (-> & _)%iteration_Continue_inv.
    apply NoDup_cons. split; [|by apply IH].
    intros Hin.
    destruct (reaches_from_call _ _ _ _ _ _ _ _ Hr Hin) as (p1 & p2 & s3 & -> & Hp2).
    pose proof (reaches_pass _ _ _ _ _ _ _ _ _ _ Hit Hr) as Hall.
    pose proof (reaches_END_unique _ _ _ _ _ _ _ _ _ _ Hp2 Hall) as Heq.
    apply (f_equal length) in Heq. rewrite !length_app in Heq. simpl in Heq. lia.
Qed.

(** ** X3 *)

(** X3. The nodes [Invoke] calls form a path of the graph from the entry
    point: every name called is a registered node other than the sentinel,
    the first one is the entry point, and each next one is the target of an
    edge of the graph that leaves the one called before it. *)
Theorem Invoke_calls_follow_edges h r G fuel ctx s0 calls s err :
  h !! graph r = Some G →
  Invoke fuel r ctx s0 h = Returns calls s err →
  (∀ name, name ∈ calls → name ≠ END ∧ is_Some (nodes G !! name)) ∧
  (∀ name, head calls = Some name → name = entryPoint G) ∧
  (∀ i a b, calls !! i = Some a → calls !! S i = Some b →
            {| From := a; To := b |} ∈ edges G).
Proof.
  intros Hg. rewrite (Invoke_Some _ _ _ _ _ _ Hg).
  intros (pre & c1 & s1 & lst & Hr & Hit & -> & _)%loop_Returns_inv.
  destruct (reaches_path _ _ _ _ _ _ _ Hr) as (Hin & Hhd & Hedge).
  assert (lst = [] ∨ lst = [c1] ∧ c1 ≠ END ∧ is_Some (nodes G !! c1)) as Hlst.
  { apply iteration_Return_inv in Hit
      as [(_ & -> & _)|[(_ & _ & -> & _)|[(? & -> & ? & ? & -> & _)
         |(? & -> & ? & -> & _)]]]; eauto. }
  destruct Hlst as [->|(-> & Hc & Hn)].
  - rewrite app_nil_r. split_and!; [done| |].
    + intros name Hname. destruct pre; [done|]. simpl in *. congruence.
    + intros i a b Ha Hb. apply (Hedge i); by apply lookup_app_l_Some.
  - split_and!; [|intros; congruence|done].
    intros name [? | ->%list_elem_of_singleton]%elem_of_app; auto.
Qed.

(** ** X4 *)

(** X4. A call of [Invoke] that returns a nil error has called no node
    twice: a graph cannot make a successful run pass through a node
    again. *)
Theorem Invoke_success_calls_once h r G fuel ctx s0 calls s :
  h !! graph r = Some G →
  Invoke fuel r ctx s0 h = Returns calls s None →
  NoDup calls.
Proof.
  intros Hg. rewrite (Invoke_Some _ _ _ _ _ _ Hg).
  intros Hr%loop_success_reaches. by eapply reaches_END_NoDup.
Qed.

(** ** X5 *)

(** X5. The route does not depend on the data: of the call logs of two
    returning calls of [Invoke] on the same graph, with any two inputs and
    contexts, one is the start of the other. *)
Theorem Invoke_route_independent_of_state h r G fuel fuel' ctx ctx'
    s0 s0' calls calls' s s' err err' :
  h !! graph r = Some G →
  Invoke fuel r ctx s0 h = Returns calls s err →
  Invoke fuel' r ctx' s0' h = Returns calls' s' err' →
  calls `prefix_of` calls' ∨ calls' `prefix_of` calls.
Proof.
  intros Hg. rewrite !(Invoke_Some _ _ _ _ _ _ Hg).
  assert (∀ ctx0 ctx1 u u' p p' c1 c1' v v' l l' w w' e e',
            reaches G ctx0 (entryPoint G) u p c1 v →
            iteration G ctx0 c1 v = (l, Return w e) →
            reaches G ctx1 (entryPoint G) u' p' c1' v' →
            iteration G ctx1 c1' v' = (l', Return w' e') →
            length p ≤ length p' →
            (p ++ l) `prefix_of` (p' ++ l') ∨ (p' ++ l') `prefix_of` (p ++ l))
    as Hle.
  { intros ctx0 ctx1 u u' p p' c1 c1' v v' l l' w w' e e' Hp Hl Hp' Hl' Hlen.
    destruct (reaches_prefix _ _ _ _ _ _ _ _ Hp _ _ _ _ Hp' Hlen)
      as (q & t & -> & Hq).
    apply iteration_calls in Hl. apply iteration_calls in Hl'.
    inversion Hq as [|? ? ? ? ? ? ? ? Hit]; subst.
    - rewrite app_nil_r.
      destruct Hl as [->|[-> _]], Hl' as [->|[-> _]];
        [left|left|right|left]; apply prefix_app;
        first [apply prefix_nil|reflexivity].
    - pose proof Hit as (-> & _)%iteration_Continue_inv.
      left. rewrite <- !(assoc_L (++)). apply prefix_app.
      destruct Hl as [->|[-> _]]; [apply prefix_nil|].
      apply prefix_app_r. reflexivity. }
  intros (p & c1 & v & l & Hp & Hl & -> & _)%loop_Returns_inv.
  intros (p' & c1' & v' & l' & Hp' & Hl' & -> & _)%loop_Returns_inv.
  destruct (decide (length p ≤ length p')).
  - eapply Hle; eauto.
  - apply or_comm. eapply Hle; eauto. lia.
Qed.

(** ** X6 *)

(** X6. [Invoke] has no bound on its passes and detects no cycle: when the
    entry point lies in a set of names that excludes the sentinel, in which
    every name is a registered node with an outgoing edge and a step that
    succeeds on every state, and which no edge of the graph leaves, the
    loop never returns, however much fuel it is given. *)
Theorem Invoke_runs_forever h r G ctx (P : string → Prop) s fuel :
  h !! graph r = Some G →
  P (entryPoint G) →
  (∀ c, P c →
        c ≠ END ∧
        (∃ node, nodes G !! c = Some node ∧ ∀ s, (Function node ctx s).2 = None) ∧
        (∃ e, e ∈ edges G ∧ From e = c)) →
  (∀ e, e ∈ edges G → P (From e) → P (To e)) →
  Invoke fuel r ctx s h = OutOfFuel.
Proof.
  intros Hg Hentry Hlive Hclosed. rewrite (Invoke_Some _ _ _ _ _ _ Hg).
  generalize dependent s. generalize (entryPoint G) Hentry.
  induction fuel as [|fuel IH]; intros c Hc s; [done|]. simpl.
  destruct (Hlive c Hc) as (Hne & (node & Hn & Hok) & (e & He & Hfrom)).
  destruct (Function node ctx s) as [s1 err] eqn:Hf.
  pose proof (Hok s) as Herr. rewrite Hf in Herr. simpl in Herr. subst err.
  destruct (find (λ edge, bool_decide (From edge = c)) (edges G)) as [edge|] eqn:Hfind.
  - rewrite (iteration_next _ _ _ _ _ _ _ Hne Hn Hf Hfind).
    apply find_some in Hfind as [Hin Hedge%bool_decide_eq_true_1].
    apply list_elem_of_In in Hin.
    rewrite IH; [done|]. apply Hclosed; [done|]. by rewrite Hedge.
  - by destruct (proj1 (find_none_iff _ _) Hfind e He).
Qed.

End Routes.

(** * Further properties of the builder calls *)

Section Composition.

Context {T Ctx : Type}.
Implicit Types (h : gmap loc (MessageGraph T Ctx)) (G : MessageGraph T Ctx).
Implicit Types (g : loc) (o : op T Ctx) (os : list (op T Ctx)).
Implicit Types (r : Runnable) (ctx : Ctx) (c name : string) (s : T).

(** A pass at a node other than the sentinel calls that node, unless no
    node is registered under its name. *)
Lemma iteration_at G ctx c s cl f :
  iteration G ctx c s = (cl, f) → c ≠ END →
  cl = [c] ∧ is_Some (nodes G !! c) ∨
  cl = [] ∧ nodes G !! c = None ∧
  f = Return s (Some (Errorf_w_s ErrNodeNotFound c)).
Proof.
  unfold iteration. intros Hit Hc. rewrite decide_False in Hit by done.
  destruct (nodes G !! c) as [node|]; [|injection Hit as <- <-; auto].
  left. destruct (Function node ctx s) as [s1 [e|]];
    [|destruct (find _ (edges G))]; injection Hit as <- <-; eauto.
Qed.

(** What the loop returns starts with the calls of its first pass. *)
Lemma loop_first_pass G ctx fuel c s cl f calls s' err :
  iteration G ctx c s = (cl, f) →
  loop (S fuel) G ctx c s = Returns calls s' err →
  cl `prefix_of` calls ∧ (∀ s0 e, f = Return s0 e → e = err) ∧
  (∀ c1 s1, f = Continue c1 s1 →
            ∃ rest, calls = cl ++ rest ∧
                    loop fuel G ctx c1 s1 = Returns rest s' err).
Proof.
  intros Hit. simpl. rewrite Hit. destruct f as [c1 s1|s1 e].
  - destruct (loop fuel G ctx c1 s1) as [rest s2 e2| |] eqn:Hrec; [|done..].
    simpl. intros [= <- <- <-]. split_and!; [by apply prefix_app_r|done|].
    intros ? ? [= <- <-]. eauto.
  - intros [= <- <- <-]. split_and!; [done|by intros ? ? [= _ <-]|done].
Qed.

Lemma loop_AddNode_off_route G ctx name fn fuel : ∀ c s calls s' err,
  loop fuel G ctx c s = Returns calls s' err →
  name ∉ calls →
  err ≠ Some (Errorf_w_s ErrNodeNotFound name) →
  loop fuel (effect (OpAddNode name fn) G) ctx c s = Returns calls s' err.
Proof.
  induction fuel as [|fuel IH]; intros c s calls s' err Hl Hcalls Herr; [done|].
  destruct (iteration G ctx c s) as [cl f] eqn:Hit.
  destruct (loop_first_pass _ _ _ _ _ _ _ _ _ _ Hit Hl) as (Hpre & Hret & Hcont).
  assert (iteration (effect (OpAddNode name fn) G) ctx c s = (cl, f)) as Hit'.
  { rewrite <- Hit. apply iteration_congr; [|done].
    intros Hc. apply lookup_AddNode_ne. intros <-.
    destruct (iteration_at _ _ _ _ _ _ Hit Hc) as [[-> _]|(_ & _ & ->)].
    - apply Hcalls. destruct Hpre as [k ->]. apply elem_of_app. left.
      apply list_elem_of_here.
    - by rewrite <- (Hret _ _ eq_refl) in Herr. }
  simpl in *. rewrite Hit in Hl. rewrite Hit'.
  destruct f as [c1 s1|s1 e]; [|done].
  destruct (Hcont _ _ eq_refl) as (rest & -> & Hrec).
  rewrite (IH _ _ _ _ _ Hrec); [done| |done].
  intros Hin. apply Hcalls, elem_of_app. by right.
Qed.

Lemma loop_AddEdge_off_route G ctx from to fuel : ∀ c s calls s' err,
  loop fuel G ctx c s = Returns calls s' err →
  from ∉ calls →
  loop fuel (effect (OpAddEdge from to) G) ctx c s = Returns calls s' err.
Proof.
  induction fuel as [|fuel IH]; intros c s calls s' err Hl Hcalls; [done|].
  destruct (iteration G ctx c s) as [cl f] eqn:Hit.
  destruct (loop_first_pass _ _ _ _ _ _ _ _ _ _ Hit Hl) as (Hpre & Hret & Hcont).
  assert (iteration (effect (OpAddEdge from to) G) ctx c s = (cl, f)) as Hit'.
  { rewrite <- Hit. destruct (decide (c = END)) as [->|Hc];
      [by rewrite !iteration_END|].
    destruct (iteration_at _ _ _ _ _ _ Hit Hc) as [[-> _]|(_ & Hn & _)].
    - apply iteration_congr; [done|]. simpl.
      destruct (find (λ e, bool_decide (From e = c)) (edges G)) eqn:Hfind.
      + by apply find_app_l.
      + rewrite find_app_r by done. simpl.
        rewrite bool_decide_eq_false_2; [done|]. simpl. intros <-.
        apply Hcalls. destruct Hpre as [k ->]. apply elem_of_app. left.
        apply list_elem_of_here.
    - by rewrite !iteration_not_found. }
  simpl in *. rewrite Hit in Hl. rewrite Hit'.
  destruct f as [c1 s1|s1 e]; [|done].
  destruct (Hcont _ _ eq_refl) as (rest & -> & Hrec).
  rewrite (IH _ _ _ _ _ Hrec); [done|].
  intros Hin. apply Hcalls, elem_of_app. by right.
Qed.

(** ** X7 *)

(** X7. On a graph whose node map has been made, registering or
    overwriting a node that a returning call of [Invoke] neither called nor
    missed succeeds and leaves that call as it was: same calls, same state,
    same error. *)
Theorem AddNode_off_route h g G name (fn : step T Ctx) fuel ctx s calls s' err :
  h !! g = Some G →
  is_Some (nodes G) →
  Invoke fuel {| graph := g |} ctx s h = Returns calls s' err →
  name ∉ calls →
  err ≠ Some (Errorf_w_s ErrNodeNotFound name) →
  ∃ h',
    AddNode g name fn h = Some (tt, h') ∧
    Invoke fuel {| graph := g |} ctx s h' = Returns calls s' err.
Proof.
  intros Hg Hm Hinv Hcalls Herr. eexists. split; [by apply AddNode_Some|].
  rewrite Invoke_insert. rewrite (Invoke_Some _ _ G) in Hinv by done.
  simpl entryPoint. by apply loop_AddNode_off_route.
Qed.

(** ** X8 *)

(** X8. Appending an edge that leaves a name which a returning call of
    [Invoke] did not call leaves that call as it was. *)
Theorem AddEdge_off_route h g G from to fuel ctx s calls s' err :
  h !! g = Some G →
  Invoke fuel {| graph := g |} ctx s h = Returns calls s' err →
  from ∉ calls →
  ∃ h',
    AddEdge g from to h = Some (tt, h') ∧
    Invoke fuel {| graph := g |} ctx s h' = Returns calls s' err.
Proof.
  intros Hg Hinv Hcalls. eexists. split; [by apply AddEdge_Some|].
  rewrite Invoke_insert. rewrite (Invoke_Some _ _ G) in Hinv by done.
  simpl entryPoint. by apply loop_AddEdge_off_route.
Qed.

(** ** X9 *)

Lemma effect_commute o1 o2 G :
  independent o1 o2 → effect o2 (effect o1 G) = effect o1 (effect o2 G).
Proof.
  destruct o1 as [n1 f1| |], o2 as [n2 f2| |]; simpl; try done.
  intros Hne. f_equal. destruct (nodes G) as [m|]; [|done]. simpl.
  f_equal. by apply insert_insert_ne.
Qed.

(** X9. On a graph whose node map has been made, two builder calls can be
    made in either order with the same resulting store when they are calls
    of different methods or [AddNode] calls for different names. *)
Theorem builder_calls_commute h g G o1 o2 :
  h !! g = Some G →
  is_Some (nodes G) →
  independent o1 o2 →
  ∃ h',
    (run_op g o1 ;; run_op g o2) h = Some (tt, h') ∧
    (run_op g o2 ;; run_op g o1) h = Some (tt, h').
Proof.
  intros Hg Hm Hind. exists (<[g := effect o2 (effect o1 G)]> h).
  unfold mbind, M_bind. rewrite !(run_op_effect _ _ _ _ Hg Hm).
  rewrite !(run_op_effect _ _ _ _ (lookup_insert_eq _ _ _))
    by by apply effect_made.
  rewrite !insert_insert_eq. split; [done|].
  by rewrite (effect_commute o1 o2).
Qed.

(** ** X10 *)

Lemma effect_keyed o G :
  (∀ name node, nodes G !! name = Some node → Name node = name) →
  ∀ name node, nodes (effect o G) !! name = Some node → Name node = name.
Proof.
  intros HG name node. destruct o as [n fn| |]; [|apply HG..].
  intros [[<- ->]|[_ Hn]]%lookup_AddNode_Some; [done|by apply HG].
Qed.

Lemma effects_keyed os : ∀ G,
  (∀ name node, nodes G !! name = Some node → Name node = name) →
  ∀ name node, nodes (effects os G) !! name = Some node → Name node = name.
Proof.
  induction os as [|o os IH]; intros G HG; [done|].
  apply (IH (effect o G)). by apply effect_keyed.
Qed.

(** X10. In every graph made by [NewMessageGraph] and builder calls, the
    [Name] field of each registered node is the name it is registered
    under. *)
Theorem node_names_match_keys (h : gmap loc (MessageGraph T Ctx)) os :
  ∃ g h' G,
    build os h = Some (g, h') ∧
    h' !! g = Some G ∧
    ∀ name node, nodes G !! name = Some node → Name node = name.
Proof.
  eexists _, _, _. split_and!; [apply build_Some|apply lookup_insert_eq|].
  apply effects_keyed. intros name node.
  rewrite new_graph_lookup. case_decide; [by intros [= <-]|done].
Qed.

(** ** X11 *)

Lemma edges_effects os : ∀ G, edges (effects os G) = edges G ++ added_edges os.
Proof.
  induction os as [|o os IH]; intros G; [by rewrite app_nil_r|].
  change (effects (o :: os) G) with (effects os (effect o G)). rewrite IH.
  destruct o; simpl; [done| |done]. by rewrite <- (assoc_L (++)).
Qed.

Lemma nodes_effects os name : ∀ G,
  is_Some (nodes G) →
  Function <$> nodes (effects os G) !! name
  = last_added (Function <$> nodes G !! name) os name.
Proof.
  induction os as [|o os IH]; intros G Hm; [done|].
  change (effects (o :: os) G) with (effects os (effect o G)).
  rewrite IH by by apply effect_made.
  unfold last_added. simpl. f_equal.
  destruct o as [n fn| |]; [|done..].
  case_decide as Hn.
  - subst. by rewrite lookup_AddNode_eq.
  - by rewrite lookup_AddNode_ne.
Qed.

(** X11. What a build script leaves in its graph: the edges are the
    [AddEdge] calls in call order, none dropped or merged; the entry point
    is the argument of the last [SetEntryPoint] call, empty without one;
    and the step found under a name is that of the last [AddNode] call for
    the name, without one the identity step for the sentinel and none for
    any other name. *)
Theorem build_contents (h : gmap loc (MessageGraph T Ctx)) os :
  ∃ g h' G,
    build os h = Some (g, h') ∧
    h' !! g = Some G ∧
    edges G = added_edges os ∧
    entryPoint G = default "" (entry_set os) ∧
    ∀ name,
      Function <$> nodes G !! name
      = last_added (if decide (name = END)
                    then Some (λ _ state, (state, None))
                    else None) os name.
Proof.
  eexists _, _, _. split_and!; [apply build_Some|apply lookup_insert_eq|..].
  - by rewrite edges_effects.
  - by rewrite entryPoint_effects.
  - intros name. rewrite nodes_effects by apply new_graph_made. f_equal.
    rewrite new_graph_lookup. case_decide as H1; case_decide as H2; done.
Qed.

(** ** X12 *)

(** X12. [Compile] can be called before the graph is complete: a
    [Runnable] compiled before a sequence of builder calls holds the same
    graph pointer as one compiled after them, compiling first and building
    afterwards ends in the same store as building first, and on that store
    [Invoke] through either [Runnable] gives the same result. *)
Theorem Compile_before_or_after h g os r r' h' :
  Compile g h = Some ((Some r, None), h) →
  (run_ops g os ;; Compile g) h = Some ((Some r', None), h') →
  graph r = g ∧ graph r' = g ∧
  (res ← Compile g; run_ops g os ;; mret res) h = Some ((Some r, None), h') ∧
  ∀ fuel ctx s, Invoke fuel r ctx s h' = Invoke fuel r' ctx s h'.
Proof.
  unfold mbind, M_bind. intros Hc Hafter. rewrite Hc.
  destruct (h !! g) as [G|] eqn:Hg.
  - rewrite (Compile_Some _ _ _ Hg) in Hc.
    destruct (run_ops g os h) as [[[] h1]|] eqn:Hrun; [|done].
    apply (run_ops_returns _ _ _ _ _ Hg) in Hrun as ->.
    rewrite (Compile_Some _ _ _ (lookup_insert_eq _ _ _)) in Hafter.
    case_decide; [done|]. case_decide; [done|].
    by simplify_eq.
  - unfold Compile, mbind, M_bind, deref in Hc. by rewrite Hg in Hc.
Qed.

(** ** X13 *)

(** X13. Graphs share nothing: a second graph gets an address of its own,
    and building it changes neither the first graph nor any struct that was
    in the store before. *)
Theorem graphs_share_nothing (h : gmap loc (MessageGraph T Ctx)) os1 os2 :
  ∃ g1 h1 g2 h2,
    build os1 h = Some (g1, h1) ∧
    build os2 h1 = Some (g2, h2) ∧
    g1 ≠ g2 ∧
    h !! g1 = None ∧ h1 !! g2 = None ∧
    h2 !! g1 = h1 !! g1 ∧
    ∀ g0, is_Some (h !! g0) → h2 !! g0 = h !! g0.
Proof.
  eexists _, _, _, _. split; [apply build_Some|]. split; [apply build_Some|].
  set (g1 := fresh (dom h)).
  set (h1 := <[g1 := effects os1 new_graph]> h).
  assert (h !! g1 = None) as H1 by apply NewMessageGraph_fresh.
  assert (h1 !! fresh (dom h1) = None) as H2 by apply NewMessageGraph_fresh.
  assert (g1 ≠ fresh (dom h1)) as Hne.
  { intros Heq. rewrite <- Heq in H2. unfold h1 in H2.
    by rewrite lookup_insert_eq in H2. }
  split_and!; [done..| |].
  - by rewrite lookup_insert_ne.
  - intros g0 [G0 HG0].
    assert (g0 ≠ g1) as Hg1 by (intros ->; congruence).
    assert (g0 ≠ fresh (dom h1)) as Hg2.
    { intros Heq. rewrite <- Heq in H2. unfold h1 in H2.
      rewrite lookup_insert_ne in H2 by done. congruence. }
    rewrite lookup_insert_ne by done. unfold h1. by rewrite lookup_insert_ne.
Qed.

End Composition.

(** * Instances of the further properties on the test graphs *)

Section MoreInstances.

Import Tests MoreTests.

Lemma Invoke_success_ends_at_END_witness :
  (entryPoint (effects simple_graph new_graph) = END ∧
   ["node1"; "node2"] = [] ∧
   ["Input"; "Node 1"; "Node 2"] = ["Input"]) ∨
  ∃ pre name node s1,
    ["node1"; "node2"] = pre ++ [name] ∧
    nodes (effects simple_graph new_graph) !! name = Some node ∧
    Function node tt s1 = (["Input"; "Node 1"; "Node 2"], None) ∧
    {| From := name; To := END |} ∈ edges (effects simple_graph new_graph).
Proof.
  apply (Invoke_success_ends_at_END (store simple_graph) r1
           (effects simple_graph new_graph) 3 tt ["Input"]).
  - reflexivity.
  - reflexivity.
Defined.

Lemma Invoke_error_forms_witness :
  (∃ name,
     Errorf_error_in_node "node2" (errorString "node error")
     = Errorf_w_s ErrNodeNotFound name ∧
     name ≠ END ∧ nodes (effects fails_second new_graph) !! name = None ∧
     name ∉ ["node1"; "node2"]) ∨
  (∃ name cause node s1,
     Errorf_error_in_node "node2" (errorString "node error")
     = Errorf_error_in_node name cause ∧
     last ["node1"; "node2"] = Some name ∧
     nodes (effects fails_second new_graph) !! name = Some node ∧
     Function node tt s1 = ([], Some cause)) ∨
  (∃ name,
     Errorf_error_in_node "node2" (errorString "node error")
     = Errorf_w_s ErrNoOutgoingEdge name ∧
     last ["node1"; "node2"] = Some name ∧
     ∀ edge, edge ∈ edges (effects fails_second new_graph) → From edge ≠ name).
Proof.
  apply (Invoke_error_forms (store fails_second) r1
           (effects fails_second new_graph) 2 tt ["Input"]).
  - reflexivity.
  - reflexivity.
Defined.

Lemma Invoke_calls_follow_edges_witness :
  (∀ name, name ∈ ["node1"; "node2"] →
           name ≠ END ∧
           is_Some (nodes (effects simple_graph new_graph) !! name)) ∧
  (∀ name, head ["node1"; "node2"] = Some name →
           name = entryPoint (effects simple_graph new_graph)) ∧
  (∀ i a b, ["node1"; "node2"] !! i = Some a →
            ["node1"; "node2"] !! S i = Some b →
            {| From := a; To := b |} ∈ edges (effects simple_graph new_graph)).
Proof.
  apply (Invoke_calls_follow_edges (store simple_graph) r1
           (effects simple_graph new_graph) 3 tt ["Input"]
           ["node1"; "node2"] ["Input"; "Node 1"; "Node 2"] None).
  - reflexivity.
  - reflexivity.
Defined.

Lemma Invoke_success_calls_once_witness : NoDup ["node1"; "node2"].
Proof.
  apply (Invoke_success_calls_once (store simple_graph) r1
           (effects simple_graph new_graph) 3 tt ["Input"]
           ["node1"; "node2"] ["Input"; "Node 1"; "Node 2"]).
  - reflexivity.
  - reflexivity.
Defined.

Lemma Invoke_route_independent_of_state_witness :
  ["node1"; "node2"] `prefix_of` ["node1"; "node2"] ∨
  ["node1"; "node2"] `prefix_of` ["node1"; "node2"].
Proof.
  apply (Invoke_route_independent_of_state (store simple_graph) r1
           (effects simple_graph new_graph) 3 4 tt tt ["Input"] []
           ["node1"; "node2"] ["node1"; "node2"]
           ["Input"; "Node 1"; "Node 2"] ["Node 1"; "Node 2"] None None).
  - reflexivity.
  - reflexivity.
  - reflexivity.
Defined.

Lemma Invoke_runs_forever_witness :
  Invoke 5 r1 tt ["Input"] (store self_loop) = OutOfFuel.
Proof.
  apply (Invoke_runs_forever (store self_loop) r1
           (effects self_loop new_graph) tt (λ c, c = "node1")).
  - reflexivity.
  - reflexivity.
  - intros c ->. split_and!.
    + done.
    + eexists. split; [reflexivity|]. intros s. reflexivity.
    + eexists. split; [apply list_elem_of_here|reflexivity].
  - intros e Hin _. simpl in Hin. apply list_elem_of_singleton in Hin.
    subst e. reflexivity.
Defined.

Lemma AddNode_off_route_witness :
  ∃ h',
    AddNode 1%positive "spare" (fail_with "spare") (store simple_graph)
    = Some (tt, h') ∧
    Invoke 3 r1 tt ["Input"] h'
    = Returns ["node1"; "node2"] ["Input"; "Node 1"; "Node 2"] None.
Proof.
  apply (AddNode_off_route (store simple_graph) 1%positive
           (effects simple_graph new_graph)).
  - reflexivity.
  - eexists. reflexivity.
  - reflexivity.
  - rewrite !not_elem_of_cons. split_and!; [done..|apply not_elem_of_nil].
  - done.
Defined.

Lemma AddEdge_off_route_witness :
  ∃ h',
    AddEdge 1%positive "spare" "node1" (store simple_graph) = Some (tt, h') ∧
    Invoke 3 r1 tt ["Input"] h'
    = Returns ["node1"; "node2"] ["Input"; "Node 1"; "Node 2"] None.
Proof.
  apply (AddEdge_off_route (store simple_graph) 1%positive
           (effects simple_graph new_graph)).
  - reflexivity.
  - reflexivity.
  - rewrite !not_elem_of_cons. split_and!; [done..|apply not_elem_of_nil].
Defined.

Lemma builder_calls_commute_witness :
  ∃ h',
    (run_op 1%positive (OpAddNode "a" keep) ;;
     run_op 1%positive (OpAddEdge "a" "b")) (store simple_graph)
    = Some (tt, h') ∧
    (run_op 1%positive (OpAddEdge "a" "b") ;;
     run_op 1%positive (OpAddNode "a" keep)) (store simple_graph)
    = Some (tt, h').
Proof.
  apply (builder_calls_commute (store simple_graph) 1%positive
           (effects simple_graph new_graph)).
  - reflexivity.
  - eexists. reflexivity.
  - exact I.
Defined.

Lemma node_names_match_keys_witness :
  ∃ g h' G0,
    build simple_graph ∅ = Some (g, h') ∧
    h' !! g = Some G0 ∧
    Name <$> nodes G0 !! "node1" = Some "node1".
Proof.
  destruct (node_names_match_keys ∅ simple_graph)
    as (g & h' & G0 & Hbuild & Hg & Hkeys).
  exists g, h', G0. split_and!; [done..|].
  rewrite build_Some in Hbuild. injection Hbuild as <- <-.
  rewrite lookup_insert_eq in Hg. injection Hg as <-.
  reflexivity.
Defined.

Lemma Compile_before_or_after_witness :
  graph r1 = 1%positive ∧ graph r1 = 1%positive ∧
  (res ← Compile 1%positive; run_ops 1%positive [OpAddEdge "node1" END] ;;
   mret res) (store no_outgoing_edge)
  = Some ((Some r1, None),
          store (no_outgoing_edge ++ [OpAddEdge "node1" END])) ∧
  ∀ fuel ctx s,
    Invoke fuel r1 ctx s (store (no_outgoing_edge ++ [OpAddEdge "node1" END]))
    = Invoke fuel r1 ctx s (store (no_outgoing_edge ++ [OpAddEdge "node1" END])).
Proof.
  apply (Compile_before_or_after (store no_outgoing_edge) 1%positive
           [OpAddEdge "node1" END] r1 r1
           (store (no_outgoing_edge ++ [OpAddEdge "node1" END]))).
  - reflexivity.
  - reflexivity.
Defined.

Lemma graphs_share_nothing_witness :
  ∃ g1 h1 g2 h2,
    build no_outgoing_edge (store simple_graph) = Some (g1, h1) ∧
    build self_loop h1 = Some (g2, h2) ∧
    g1 ≠ g2 ∧
    h2 !! g1 = h1 !! g1 ∧
    h2 !! 1%positive = store simple_graph !! 1%positive.
Proof.
  destruct (graphs_share_nothing (store simple_graph) no_outgoing_edge self_loop)
    as (g1 & h1 & g2 & h2 & Hb1 & Hb2 & Hne & _ & _ & Hsame & Hold).
  exists g1, h1, g2, h2. split_and!; [done..|].
  apply Hold. eexists. reflexivity.
Defined.

End MoreInstances.

(** * The zero value of [MessageGraph] *)

Module ZeroValue.

Import Tests MoreTests.

(** [AddNode] writes to the nil map and panics. *)
Example AddNode_panics : AddNode 1%positive "node1" keep zero_store = None.
Proof. reflexivity. Qed.

(** [AddEdge], [SetEntryPoint] and [Compile] do not touch the map, and
    [Invoke] reads it as a map without entries. *)
Example Invoke_reads_nil_map :
  match (AddEdge 1%positive "node1" END ;;
         SetEntryPoint 1%positive "node1" ;;
         Compile 1%positive) zero_store with
  | Some ((Some r, None), h) => message (Invoke 1 r tt ["Input"] h)
  | _ => None
  end = Some "node not found: node1".
Proof. vm_compute. reflexivity. Qed.

End ZeroValue.
